(** * Demo chat gateway: rate limiter, sanitizer and response gateway

    A shallow embedding of [src/frontend/src/app/api/chat/route.ts]
    (the Next.js route of the demo chat widget) and the properties its
    specification states about it, followed by the handlers of its client
    [src/frontend/src/components/DemoChatInterface.tsx] and properties of
    the two together.

    Conventions of the embedding.
    - A JavaScript string is the list of its UTF-16 code units ([list N]).
    - [Date.now()] is an integer number of milliseconds ([Z]); the counter
      of a quota record is an integer ([Z]).
    - The process-wide [rateLimitStore] ([Map<string, {count, resetTime}>])
      is a finite map from caller identities to records, threaded
      explicitly through every handler.
    - What a handler reads from its surroundings (the clock, the
      environment, the random source, the upstream model) is gathered in a
      [world] value passed to the handler. *)

From Stdlib Require Import ZArith NArith Ascii String List Bool Lia Sorted.
From stdpp Require Import base option list gmap.

Local Open Scope Z_scope.

(* ===================================================================== *)
(** ** JavaScript strings *)
(* ===================================================================== *)

(** Code units of an ASCII literal. *)
Definition js (s : string) : list N :=
  List.map N_of_ascii (list_ascii_of_string s).

(** [WhiteSpace] and [LineTerminator] code points of ECMAScript, the ones
    [String.prototype.trim] removes. *)
Definition is_ws (c : N) : bool :=
  (existsb (N.eqb c)
     [9; 10; 11; 12; 13; 32; 160; 5760; 8232; 8233; 8239; 8287; 12288; 65279]
   || ((8192 <=? c) && (c <=? 8202)))%N.

Fixpoint trimStart (s : list N) : list N :=
  match s with
  | [] => []
  | c :: s' => if is_ws c then trimStart s' else s
  end.

Definition trimEnd (s : list N) : list N :=
  reverse (trimStart (reverse s)).

(** [String.prototype.trim]. *)
Definition trim (s : list N) : list N := trimEnd (trimStart s).

(** [String.prototype.slice(0, n)] for a non-negative [n]. *)
Definition slice0 (n : nat) (s : list N) : list N := take n s.

(* ===================================================================== *)
(** ** Regular expressions (the fragment the route uses)

    A backtracking matcher in continuation-passing style, as in the
    ECMAScript specification: a matcher takes the position (the code unit
    before it, which [\b] needs, and the rest of the subject) and a
    continuation, and answers with the rest of the subject after the whole
    match, or with a failure. *)
(* ===================================================================== *)

Inductive regex : Type :=
| REmpty                                        (* the empty pattern *)
| RChar (c : N)                                 (* a pattern character *)
| RClass (negated : bool) (members : list N)    (* [...] and [^...] *)
| RSeq (r1 r2 : regex)                          (* r1 r2 *)
| RStar (r : regex)                             (* (?:r)*, greedy *)
| RNotAhead (r : regex)                         (* (?!r) *)
| RWordBoundary.                                (* \b *)

(** [Canonicalize] under the [i] flag (no [u] flag) on the code units that
    can equal the canonical form of an ASCII pattern character: a code
    unit of 128 or more never canonicalizes below 128, so upper-casing
    ASCII letters decides every comparison against such a character. *)
Definition canonicalize (c : N) : N :=
  if ((97 <=? c) && (c <=? 122))%N then (c - 32)%N else c.

(** [\w]: the characters [A-Za-z0-9_]. *)
Definition is_word_char (c : N) : bool :=
  (((48 <=? c) && (c <=? 57)) || ((65 <=? c) && (c <=? 90))
   || (c =? 95) || ((97 <=? c) && (c <=? 122)))%N.

Definition is_word_at (o : option N) : bool :=
  match o with Some c => is_word_char c | None => false end.

Definition cont : Type := option N -> list N -> option (list N).
Definition matcher : Type := option N -> list N -> cont -> option (list N).

(** Greedy iteration: try the body once more, refusing an iteration that
    consumes nothing, and fall back to the continuation.  [n] bounds the
    number of iterations; every iteration consumes a code unit, so
    [S (length s)] is never exhausted. *)
Fixpoint star_loop (m : matcher) (k : cont) (n : nat)
    (prev : option N) (s : list N) : option (list N) :=
  match n with
  | O => k prev s
  | S n' =>
      match m prev s (fun p' s' =>
                        if (length s' <? length s)%nat
                        then star_loop m k n' p' s' else None) with
      | Some r => Some r
      | None => k prev s
      end
  end.

Definition class_has (members : list N) (c : N) : bool :=
  existsb (fun a => (canonicalize a =? canonicalize c)%N) members.

Fixpoint rmatch (r : regex) : matcher :=
  match r with
  | REmpty => fun prev s k => k prev s
  | RChar c => fun prev s k =>
      match s with
      | x :: s' => if (canonicalize x =? canonicalize c)%N
                   then k (Some x) s' else None
      | [] => None
      end
  | RClass negated members => fun prev s k =>
      match s with
      | x :: s' => if xorb negated (class_has members x)
                   then k (Some x) s' else None
      | [] => None
      end
  | RSeq r1 r2 => fun prev s k =>
      rmatch r1 prev s (fun p' s' => rmatch r2 p' s' k)
  | RStar r1 => fun prev s k =>
      star_loop (rmatch r1) k (S (length s)) prev s
  | RNotAhead r1 => fun prev s k =>
      match rmatch r1 prev s (fun _ s' => Some s') with
      | Some _ => None
      | None => k prev s
      end
  | RWordBoundary => fun prev s k =>
      if xorb (is_word_at prev) (is_word_at (head s)) then k prev s else None
  end.

(** The final continuation: the match is complete. *)
Definition k_done : cont := fun _ s' => Some s'.

(** One match attempt at a position: the number of code units matched. *)
Definition exec (re : regex) (prev : option N) (s : list N) : option nat :=
  match rmatch re prev s k_done with
  | Some s' => Some (length s - length s')%nat
  | None => None
  end.

(** [subject.replace(re, '')] for a global [re]: scan the subject from the
    left; where a match of positive length starts, drop it and resume
    after it; elsewhere keep the code unit.  [m] is the match attempt,
    [skip] the number of code units of the current match still to drop,
    [prev] the code unit before the position. *)
Fixpoint replace_from (m : option N -> list N -> option nat) (skip : nat)
    (prev : option N) (s : list N) : list N :=
  match s with
  | [] => []
  | c :: s' =>
      match skip with
      | S n => replace_from m n (Some c) s'
      | O =>
          match m prev s with
          | Some (S n) => replace_from m n (Some c) s'
          | _ => c :: replace_from m 0 (Some c) s'
          end
      end
  end.

Definition replace_g (re : regex) (s : list N) : list N :=
  replace_from (exec re) 0 None s.

(** A literal: its characters in sequence. *)
Definition rlit (s : string) : regex :=
  fold_right (fun c r => RSeq (RChar c) r) REmpty (js s).

(** [ [^<] ] *)
Definition not_lt : regex := RClass true [60%N].

(** The script pattern of [sanitizeInput], flags [g] and [i]; term by term:
    [<script]  [\b]  [[^<]*]  [(?: (?!<\/script>) < [^<]* )*]  [<\/script>]. *)
Definition script_close : regex := rlit "</script>".

Definition script_group : regex :=
  RSeq (RNotAhead script_close) (RSeq (RChar 60) (RStar not_lt)).

(** The continuation of the group's iteration: the closing tag, then done. *)
Definition k_close : cont := fun p t => rmatch script_close p t k_done.

Definition script_body : regex :=
  RSeq (RStar not_lt) (RSeq (RStar script_group) script_close).

Definition script_re : regex :=
  RSeq (rlit "<script") (RSeq RWordBoundary script_body).

(** The bracket pattern of [sanitizeInput], a class of [<] and [>], flag [g]. *)
Definition bracket_re : regex := RClass false [60%N; 62%N].

(* ===================================================================== *)
(** ** [sanitizeInput] (route.ts, lines 17-23) *)
(* ===================================================================== *)

Definition sanitizeInput (input : list N) : list N :=
  slice0 1000 (replace_g bracket_re (replace_g script_re (trim input))).

(* ===================================================================== *)
(** ** Quota tracker (route.ts, lines 4-5 and 33-70) *)
(* ===================================================================== *)

(** A value of [rateLimitStore]. *)
Record quota : Type := { count : Z; resetTime : Z }.

Abbreviation store := (gmap (list N) quota).

Record rate_result : Type := { allowed : bool; remaining : Z }.

Definition dailyLimit : Z := 50.

(** [24 * 60 * 60 * 1000] *)
Definition DAY : Z := 24 * 60 * 60 * 1000.

(** The test [now > value.resetTime]. *)
Definition expired (now : Z) (v : quota) : bool := resetTime v <? now.

(** The clean-up loop over [rateLimitStore.entries()]: every entry whose
    window has expired is deleted (deleting the entry an iteration of a
    [Map] is visiting is safe; every other entry is still visited). *)
Definition sweep (now : Z) (st : store) : store :=
  filter (fun kv : list N * quota => expired now kv.2 = false) st.

Definition checkRateLimit (ip : list N) (now : Z) (st : store)
  : rate_result * store :=
  let st := sweep now st in
  match st !! ip with
  | None =>
      (* First request from this IP *)
      let resetTime := now + DAY in
      ({| allowed := true; remaining := dailyLimit - 1 |},
       <[ip := {| count := 1; resetTime := resetTime |}]> st)
  | Some userLimit =>
      if expired now userLimit then
        (* Reset expired limit *)
        let resetTime := now + DAY in
        ({| allowed := true; remaining := dailyLimit - 1 |},
         <[ip := {| count := 1; resetTime := resetTime |}]> st)
      else if dailyLimit <=? count userLimit then
        ({| allowed := false; remaining := 0 |}, st)
      else
        (* Increment count *)
        let userLimit :=
          {| count := count userLimit + 1; resetTime := resetTime userLimit |} in
        ({| allowed := true; remaining := dailyLimit - count userLimit |},
         <[ip := userLimit]> st)
  end.

(* ===================================================================== *)
(** ** Requests, responses and the surroundings of a handler *)
(* ===================================================================== *)

(** A parsed JSON text.  A number is [m * 10^e]; the fields of an object
    are in the order of the text. *)
#[local] Unset Elimination Schemes.
Inductive json : Type :=
| JNull
| JBool (b : bool)
| JNumber (m e : Z)
| JString (s : list N)
| JArray (items : list json)
| JObject (fields : list (list N * json)).
#[local] Set Elimination Schemes.

(** What the handlers read of a [NextRequest]: two headers ([None] when the
    header is absent) and the outcome of [request.json()] ([None] when it
    rejects: no body, or a body that is not a JSON text). *)
Record request : Type := {
  x_forwarded_for : option (list N);
  x_real_ip : option (list N);
  json_body : option json
}.

Inductive body : Type :=
| StatusBody (remaining : Z) (resetTime : Z)
| ErrorBody (error : list N)
| ChatBody (message : list N) (fallback : bool) (remaining : Z).

Record response : Type := { status : Z; payload : body }.

(** [NextResponse.json(b)] and [NextResponse.json(b, { status })]. *)
Definition respond (b : body) : response := {| status := 200; payload := b |}.
Definition respond_with (code : Z) (b : body) : response :=
  {| status := code; payload := b |}.

(** The fate of the promise [model.generateContent(prompt)] followed by
    [response.text()]: fulfilled with a text ([None] for a missing one),
    rejected, or never settled. *)
Inductive upstream : Type :=
| Fulfilled (text : option (list N))
| Rejected
| Pending.

(** The surroundings of one request.
    - [now]: [Date.now()] inside the [try] block; [now_catch]: the later
      [Date.now()] of the [catch] block of [GET].
    - [fault]: an exception escapes a platform call of the [try] block
      (the specification's unhandled internal fault), taken at its entry.
    - [GEMINI_API_KEY]: [process.env.GEMINI_API_KEY].
    - [generateContent]: the upstream model, by prompt.
    - [random_index]: [Math.floor(Math.random() * FALLBACK_RESPONSES.length)],
      an index of the pool since [Math.random()] lies in [0, 1). *)
Record world : Type := {
  now : Z;
  now_catch : Z;
  fault : bool;
  GEMINI_API_KEY : option (list N);
  generateContent : list N -> upstream;
  random_index : fin 5
}.

(** How a [try] block ends. *)
Inductive completion : Type :=
| Normal (r : response)
| Abrupt.

Definition FALLBACK_RESPONSES : list (list N) :=
  [ js "Sorry, the demo is currently unavailable. Please try again later.";
    js "I'm experiencing some technical difficulties right now. Please check back soon!";
    js "The demo service is temporarily offline. Thank you for your patience.";
    js "I'm currently unable to process your request. Please try again in a few moments.";
    js "Our demo is taking a short break! Please come back later." ].

(** [FALLBACK_RESPONSES[Math.floor(Math.random() * FALLBACK_RESPONSES.length)]] *)
Definition fallbackResponse (w : world) : list N :=
  nth (fin_to_nat (random_index w)) FALLBACK_RESPONSES [].

Definition LIMIT_MESSAGE : list N :=
  js "You've reached the daily demo limit of 50 messages. Please try again tomorrow!".

(* ===================================================================== *)
(** ** [getClientIP] (route.ts, lines 25-31) *)
(* ===================================================================== *)

(** [s.split(',')[0]] *)
Fixpoint split_comma_first (s : list N) : list N :=
  match s with
  | [] => []
  | c :: s' => if (c =? 44)%N then [] else c :: split_comma_first s'
  end.

(** [a || b] on values that are a string, [null] or [undefined]. *)
Definition or_string (a b : option (list N)) : option (list N) :=
  match a with
  | Some (_ :: _) => a
  | _ => b
  end.

Definition getClientIP (req : request) : list N :=
  let forwarded := x_forwarded_for req in
  let realIP := x_real_ip req in
  match or_string (or_string (split_comma_first <$> forwarded) realIP)
          (Some (js "unknown")) with
  | Some ip => ip
  | None => []
  end.

(* ===================================================================== *)
(** ** [GET] (route.ts, lines 72-108) *)
(* ===================================================================== *)

Definition GET_try (req : request) (w : world) (st : store)
  : completion * store :=
  if fault w then (Abrupt, st) else
  let clientIP := getClientIP req in
  let now := now w in
  let st := sweep now st in
  match st !! clientIP with
  | Some userLimit =>
      if expired now userLimit then
        (Normal (respond (StatusBody dailyLimit (now + DAY))), st)
      else
        (Normal (respond (StatusBody (Z.max 0 (dailyLimit - count userLimit))
                            (resetTime userLimit))), st)
  | None =>
      (* No usage yet or expired - return full limit *)
      (Normal (respond (StatusBody dailyLimit (now + DAY))), st)
  end.

Definition GET_catch (w : world) : response :=
  respond_with 500 (StatusBody 0 (now_catch w + DAY)).

Definition GET (req : request) (w : world) (st : store) : response * store :=
  match GET_try req w st with
  | (Normal r, st') => (r, st')
  | (Abrupt, st') => (GET_catch w, st')
  end.

(* ===================================================================== *)
(** ** [POST] (route.ts, lines 110-202) *)
(* ===================================================================== *)

(** Property lookup on a parsed object: [JSON.parse] keeps the last of
    several fields of one name. *)
Fixpoint get_field (name : list N) (fields : list (list N * json))
  : option json :=
  match fields with
  | [] => None
  | (k, v) :: rest =>
      match get_field name rest with
      | Some v' => Some v'
      | None => if decide (k = name) then Some v else None
      end
  end.

(** [const { message } = v]: a [TypeError] ([None]) on [null]; otherwise the
    property, [undefined] (inner [None]) where there is none. *)
Definition destructure_message (v : json) : option (option json) :=
  match v with
  | JNull => None
  | JObject fields => Some (get_field (js "message") fields)
  | JBool _ | JNumber _ _ | JString _ | JArray _ => Some None
  end.

(** [ToBoolean]. *)
Definition truthy (v : option json) : bool :=
  match v with
  | None | Some JNull => false
  | Some (JBool b) => b
  | Some (JNumber m _) => negb (m =? 0)
  | Some (JString s) => match s with [] => false | _ :: _ => true end
  | Some (JArray _) | Some (JObject _) => true
  end.

(** [typeof v === 'string'], with the string it then is. *)
Definition as_string (v : option json) : option (list N) :=
  match v with
  | Some (JString s) => Some s
  | _ => None
  end.

Definition prompt_of (sanitizedMessage : list N) : list N :=
  js "You are a helpful AI assistant for Botsistant, a chatbot platform. Keep responses concise and friendly. If users ask about Botsistant, explain that it's a platform for building AI chatbots for businesses."
  ++ [10%N; 10%N] ++ js "User message: " ++ sanitizedMessage.

(** The inner [try]/[catch] around the upstream call (lines 157-190);
    [None]: the awaited promise never settles, the handler never resumes. *)
Definition generate (w : world) (sanitizedMessage : list N) (remaining : Z)
  : option response :=
  match generateContent w (prompt_of sanitizedMessage) with
  | Pending => None
  | Fulfilled (Some (c :: text)) =>
      Some (respond (ChatBody (c :: text) false remaining))
  | Fulfilled (Some []) | Fulfilled None | Rejected =>
      (* catch (geminiError): return fallback response *)
      Some (respond (ChatBody (fallbackResponse w) true remaining))
  end.

(** The outer [try] block (lines 112-190). *)
Definition POST_try (req : request) (w : world) (st : store)
  : option completion * store :=
  if fault w then (Some Abrupt, st) else
  match json_body req with
  | None => (Some Abrupt, st)
  | Some parsed =>
  match destructure_message parsed with
  | None => (Some Abrupt, st)
  | Some message =>
  match (if negb (truthy message) then None else as_string message) with
  | None =>
      (Some (Normal (respond_with 400
         (ErrorBody (js "Message is required and must be a string")))), st)
  | Some message =>
  let sanitizedMessage := sanitizeInput message in
  match sanitizedMessage with
  | [] =>
      (Some (Normal (respond_with 400
         (ErrorBody (js "Invalid message content")))), st)
  | _ :: _ =>
  let clientIP := getClientIP req in
  let (rateLimit, st) := checkRateLimit clientIP (now w) st in
  if negb (allowed rateLimit) then
    (Some (Normal (respond (ChatBody LIMIT_MESSAGE true 0))), st)
  else
  match GEMINI_API_KEY w with
  | None | Some [] =>
      (Some (Normal (respond
         (ChatBody (fallbackResponse w) true (remaining rateLimit)))), st)
  | Some (_ :: _) =>
      (Normal <$> generate w sanitizedMessage (remaining rateLimit), st)
  end end end end end.

Definition POST_catch (w : world) : response :=
  respond_with 500 (ChatBody (fallbackResponse w) true 0).

(** [POST]: the response, if the handler ever produces one, and the store
    it leaves. *)
Definition POST (req : request) (w : world) (st : store)
  : option response * store :=
  match POST_try req w st with
  | (Some (Normal r), st') => (Some r, st')
  | (Some Abrupt, st') => (Some (POST_catch w), st')
  | (None, st') => (None, st')
  end.

(* ===================================================================== *)
(** ** Runs of the gateway *)
(* ===================================================================== *)

(** The record a first request creates. *)
Definition fresh_record (now : Z) : quota :=
  {| count := 1; resetTime := now + DAY |}.

(** What the call that brings a live window to its [c]-th request
    answers. *)
Definition call_result (c : Z) : rate_result :=
  if c <=? dailyLimit
  then {| allowed := true; remaining := dailyLimit - c |}
  else {| allowed := false; remaining := 0 |}.

(** Successive [checkRateLimit] calls of one caller at the times [ts]. *)
Fixpoint consume_all (ip : list N) (ts : list Z) (st : store)
  : list rate_result * store :=
  match ts with
  | [] => ([], st)
  | t :: ts' =>
      let (r, st) := checkRateLimit ip t st in
      let (rs, st) := consume_all ip ts' st in
      (r :: rs, st)
  end.

(** Successive [GET] requests; the store they leave. *)
Fixpoint probe_all (probes : list (request * world)) (st : store) : store :=
  match probes with
  | [] => st
  | (req, w) :: probes' => probe_all probes' (GET req w st).2
  end.

(** The stores the process can be in: empty when it starts, then changed
    by the handlers only. *)
Inductive reachable : store -> Prop :=
| reachable_start : reachable ∅
| reachable_GET req w st : reachable st -> reachable (GET req w st).2
| reachable_POST req w st : reachable st -> reachable (POST req w st).2.

(** Every record counts at least one request and at most the limit. *)
Definition counts_bounded (st : store) : Prop :=
  forall ip v, st !! ip = Some v -> 1 <= count v <= dailyLimit.

(** How the two checks of [POST] read a request. *)
Inductive verdict : Type :=
| BodyUnreadable            (* [request.json()] rejects, or yields [null] *)
| MessageMissing            (* no message, a falsy one, or not a string *)
| MessageEmpty              (* the message sanitizes to the empty string *)
| Accepted (m : list N).    (* the message [m] passes *)

Definition validate (req : request) : verdict :=
  match json_body req with
  | None => BodyUnreadable
  | Some parsed =>
      match destructure_message parsed with
      | None => BodyUnreadable
      | Some message =>
          match (if negb (truthy message) then None else as_string message) with
          | None => MessageMissing
          | Some m =>
              match sanitizeInput m with
              | [] => MessageEmpty
              | _ :: _ => Accepted m
              end
          end
      end
  end.

(** The text a response gives the chat UI to render, if any. *)
Definition message_of (r : response) : option (list N) :=
  match payload r with
  | ChatBody message _ _ => Some message
  | StatusBody _ _ | ErrorBody _ => None
  end.

(** The request carries a message that passes the two checks of [POST];
    [m] is the message as sent. *)
Definition carries_message (req : request) (m : list N) : Prop :=
  exists parsed,
    json_body req = Some parsed
    /\ destructure_message parsed = Some (Some (JString m))
    /\ sanitizeInput m <> [].

(* ===================================================================== *)
(** ** Sample inputs *)
(* ===================================================================== *)

Definition ip0 : list N := js "203.0.113.7".

(** A chat request for [hello] that came through a proxy. *)
Definition hello_request : request :=
  {| x_forwarded_for := Some (js "203.0.113.7, 10.0.0.1");
     x_real_ip := None;
     json_body := Some (JObject [(js "message", JString (js "hello"))]) |}.

(** The same caller, with the body [body]. *)
Definition request_with (body : option json) : request :=
  {| x_forwarded_for := Some (js "203.0.113.7, 10.0.0.1");
     x_real_ip := None;
     json_body := body |}.

(** Surroundings at time [t] with no credential and no fault. *)
Definition quiet_world (t : Z) : world :=
  {| now := t; now_catch := t; fault := false; GEMINI_API_KEY := None;
     generateContent := fun _ => Rejected; random_index := 0%fin |}.

(** Surroundings at time [t] with a credential and the upstream fate [u]. *)
Definition keyed_world (t : Z) (u : upstream) : world :=
  {| now := t; now_catch := t; fault := false;
     GEMINI_API_KEY := Some (js "test-key");
     generateContent := fun _ => u; random_index := 2%fin |}.

(** Surroundings at time [t] in which the platform raises. *)
Definition faulty_world (t : Z) : world :=
  {| now := t; now_catch := t + 1; fault := true; GEMINI_API_KEY := None;
     generateContent := fun _ => Rejected; random_index := 0%fin |}.

(* ===================================================================== *)
(** ** The sanitizer as the specification words it *)
(* ===================================================================== *)

(** Equal up to the case of ASCII letters. *)
Definition ci_eq (a b : list N) : Prop :=
  canonicalize <$> a = canonicalize <$> b.

(** Strip the literal [p] from the front of [s], ASCII letters compared
    without case; [prev] follows the position. *)
Fixpoint ci_strip (p : list N) (prev : option N) (s : list N)
  : option (option N * list N) :=
  match p with
  | [] => Some (prev, s)
  | a :: p' =>
      match s with
      | x :: s' => if (canonicalize x =? canonicalize a)%N
                   then ci_strip p' (Some x) s' else None
      | [] => None
      end
  end.

Definition ci_prefix (p s : list N) : option (list N) :=
  snd <$> ci_strip p None s.

(** What follows the first closing tag of [s], if there is one. *)
Fixpoint close_rest (s : list N) : option (list N) :=
  match ci_prefix (js "</script>") s with
  | Some r => Some r
  | None =>
      match s with
      | [] => None
      | _ :: s' => close_rest s'
      end
  end.

(** Skip to the next [<] (or to the end), following the position. *)
Fixpoint skip_not_lt (prev : option N) (s : list N) : option N * list N :=
  match s with
  | [] => (prev, [])
  | c :: s' => if bool_decide (c <> 60%N) then skip_not_lt (Some c) s'
               else (prev, s)
  end.

(** The script fragment that starts [s], by its length: an opening
    [<script] that ends a word, up to and including the first closing tag
    after it. *)
Definition script_fragment (s : list N) : option nat :=
  match ci_prefix (js "<script") s with
  | Some s1 =>
      if is_word_at (head s1) then None
      else match close_rest s1 with
           | Some r => Some (length s - length r)%nat
           | None => None
           end
  | None => None
  end.

(** Remove every script fragment, leftmost first; [skip] code units of the
    fragment being removed are still to drop. *)
Fixpoint remove_fragments (skip : nat) (s : list N) : list N :=
  match s with
  | [] => []
  | c :: s' =>
      match skip with
      | S n => remove_fragments n s'
      | O =>
          match script_fragment s with
          | Some (S n) => remove_fragments n s'
          | _ => c :: remove_fragments 0 s'
          end
      end
  end.

(** Remove every [<] and [>]. *)
Definition strip_brackets (s : list N) : list N :=
  filter (fun c => c <> 60%N /\ c <> 62%N) s.

(** The four steps in their order. *)
Definition sanitize_steps (input : list N) : list N :=
  take 1000 (strip_brackets (remove_fragments 0 (trim input))).

(* ===================================================================== *)
(** ** Callers side by side *)
(* ===================================================================== *)

(** The answer of a call and the caller's record after it, by the caller's
    record once the sweep has run: the four exits of [checkRateLimit]
    (lines 47-69) as a function of [rateLimitStore.get(ip)]. *)
Definition step_record (now : Z) (o : option quota) : rate_result * quota :=
  match o with
  | None => ({| allowed := true; remaining := dailyLimit - 1 |}, fresh_record now)
  | Some v =>
      if expired now v
      then ({| allowed := true; remaining := dailyLimit - 1 |}, fresh_record now)
      else if dailyLimit <=? count v
      then ({| allowed := false; remaining := 0 |}, v)
      else ({| allowed := true; remaining := dailyLimit - (count v + 1) |},
            {| count := count v + 1; resetTime := resetTime v |})
  end.

(** What happens to the store: a caller consumes, or somebody probes. *)
Inductive event : Type :=
| Consume (ip : list N) (t : Z)      (* [checkRateLimit ip] at time [t] *)
| Probe (t : Z).                     (* the sweep of a [GET] at time [t] *)

Definition time_of (e : event) : Z :=
  match e with Consume _ t => t | Probe t => t end.

(** The events in order: the answers with their callers, and the store. *)
Fixpoint serve (evs : list event) (st : store)
  : list (list N * rate_result) * store :=
  match evs with
  | [] => ([], st)
  | Consume ip t :: evs' =>
      let (r, st) := checkRateLimit ip t st in
      let (log, st) := serve evs' st in
      ((ip, r) :: log, st)
  | Probe t :: evs' => serve evs' (sweep t st)
  end.

(** The answers one caller got. *)
Definition answers_to (ip : list N) (log : list (list N * rate_result))
  : list rate_result :=
  snd <$> filter (fun p => p.1 = ip) log.

(** The times at which one caller consumed. *)
Definition times_of (ip : list N) (evs : list event) : list Z :=
  omap (fun e => match e with
                 | Consume j t => if decide (j = ip) then Some t else None
                 | Probe _ => None
                 end) evs.

(** The number of allowed answers. *)
Definition allowed_count (rs : list rate_result) : nat :=
  length (filter (fun r => allowed r = true) rs).

(** The caller's record as a call at time [t] finds it: what
    [rateLimitStore.get(ip)] returns after the sweep of that call. *)
Definition view (ip : list N) (t : Z) (st : store) : option quota :=
  sweep t st !! ip.



(** The same surroundings with another upstream model. *)
Definition with_model (w : world) (g : list N -> upstream) : world :=
  {| now := now w; now_catch := now_catch w; fault := fault w;
     GEMINI_API_KEY := GEMINI_API_KEY w; generateContent := g;
     random_index := random_index w |}.

(* ===================================================================== *)
(** ** The chat client (DemoChatInterface.tsx) *)
(* ===================================================================== *)

(** The component's state is the value of its five [useState] hooks; a
    handler is the function from the state it runs in to the state it
    leaves.  [handleSendMessage] awaits the network once: it is the pair
    of what it does before ([send_begin]) and after ([send_end]) the
    [fetch].  The [id] of a message is the number whose decimal string the
    source stores. *)

Inductive party : Type := user | bot.

Record Message : Type := {
  msg_id : Z;
  msg_text : list N;
  msg_sender : party;
  msg_timestamp : Z;
  msg_fallback : option bool      (* [None]: the field is absent *)
}.

(** [interface ApiResponse] and [interface RemainingResponse]. *)
Record ApiResponse : Type := {
  data_message : list N;
  data_fallback : bool;
  data_remaining : Z
}.

Record RemainingResponse : Type := {
  probe_remaining : Z;
  probe_resetTime : Z
}.

(** What [await fetch(...)] and [await response.json()] give: the request
    fails (or the body is not JSON), the response is not [ok], or it is
    [ok] with its parsed body. *)
Inductive fetched (A : Type) : Type :=
| Failed
| NotOk (code : Z)
| Ok (data : A).
Arguments Failed {A}.
Arguments NotOk {A} code.
Arguments Ok {A} data.

Record ui : Type := {
  messages : list Message;
  inputText : list N;
  isTyping : bool;
  remainingMessages : Z;
  error : option (list N)
}.

(** The greeting, with its waving hand (U+1F44B, two code units). *)
Definition WELCOME : list N :=
  js "Hello! Welcome to Botsistant! " ++ [55357%N; 56395%N]
  ++ js " I'm here to demonstrate our AI chatbot capabilities. Ask me anything about our platform, or just have a conversation!".

Definition welcome (date : Z) : Message :=
  {| msg_id := 1; msg_text := WELCOME; msg_sender := bot;
     msg_timestamp := date; msg_fallback := None |}.

(** The state of the first render. *)
Definition initial_ui (date : Z) : ui :=
  {| messages := [welcome date]; inputText := []; isTyping := false;
     remainingMessages := 0; error := None |}.

(** [clearChat] (lines 71-81). *)
Definition clearChat (date : Z) (s : ui) : ui :=
  {| messages := [welcome date]; inputText := inputText s;
     isTyping := isTyping s; remainingMessages := remainingMessages s;
     error := None |}.

(** [fetchRemainingMessages] (lines 47-65), once the [fetch] is over. *)
Definition fetchRemainingMessages (f : fetched RemainingResponse) (s : ui) : ui :=
  match f with
  | Ok data =>
      {| messages := messages s; inputText := inputText s;
         isTyping := isTyping s; remainingMessages := probe_remaining data;
         error := error s |}
  | NotOk _ => s
  | Failed =>
      (* Default to 50 if there's an error *)
      {| messages := messages s; inputText := inputText s;
         isTyping := isTyping s; remainingMessages := 50; error := error s |}
  end.

(** [handleSendMessage] (lines 91-154) up to the [fetch]: the state it
    leaves and the message it posts, if it posts one.  [now] is
    [Date.now()], [date] is [new Date()]. *)
Definition send_begin (now date : Z) (s : ui) : ui * option (list N) :=
  match trim (inputText s) with
  | [] => (s, None)
  | _ :: _ =>
      if isTyping s then (s, None) else
      let sanitizedInput := sanitizeInput (inputText s) in
      match sanitizedInput with
      | [] =>
          ({| messages := messages s; inputText := inputText s;
              isTyping := isTyping s; remainingMessages := remainingMessages s;
              error := Some (js "Please enter a valid message") |}, None)
      | _ :: _ =>
          let userMessage :=
            {| msg_id := now; msg_text := sanitizedInput; msg_sender := user;
               msg_timestamp := date; msg_fallback := None |} in
          ({| messages := messages s ++ [userMessage]; inputText := [];
              isTyping := true; remainingMessages := remainingMessages s;
              error := None |}, Some sanitizedInput)
      end
  end.

Definition CONNECTION_TROUBLE : list N :=
  js "Sorry, I'm having trouble connecting right now. Please try again in a moment!".

(** [handleSendMessage] from the [fetch] on, in the state of that moment. *)
Definition send_end (now date : Z) (f : fetched ApiResponse) (s : ui) : ui :=
  match f with
  | Ok data =>
      let botMessage :=
        {| msg_id := now + 1; msg_text := data_message data; msg_sender := bot;
           msg_timestamp := date; msg_fallback := Some (data_fallback data) |} in
      {| messages := messages s ++ [botMessage]; inputText := inputText s;
         isTyping := false; remainingMessages := data_remaining data;
         error := error s |}
  | NotOk _ | Failed =>
      let errorMessage :=
        {| msg_id := now + 1; msg_text := CONNECTION_TROUBLE; msg_sender := bot;
           msg_timestamp := date; msg_fallback := Some true |} in
      {| messages := messages s ++ [errorMessage]; inputText := inputText s;
         isTyping := false; remainingMessages := remainingMessages s;
         error := Some (js "Connection error. Please try again.") |}
  end.

(** [disabled] of the text input (line 300) and of the button (line 309). *)
Definition input_disabled (s : ui) : bool :=
  isTyping s || (remainingMessages s <=? 0).

Definition submit_disabled (s : ui) : bool :=
  isTyping s
  || match trim (inputText s) with [] => true | _ :: _ => false end
  || (remainingMessages s <=? 0).

(** The request [fetch('/api/chat', { method: 'POST', body:
    JSON.stringify({ message }) })] arrives as: the headers are the
    network's, the body parses back to the object that was sent. *)
Definition chat_request (forwarded realIP : option (list N)) (message : list N)
  : request :=
  {| x_forwarded_for := forwarded; x_real_ip := realIP;
     json_body := Some (JObject [(js "message", JString message)]) |}.

(** [response.ok]: a status from 200 to 299. *)
Definition response_ok (r : response) : bool :=
  (200 <=? status r) && (status r <=? 299).

(** What the client reads of the route's answer to a [POST]; [None] where
    an [ok] answer has not the shape of [ApiResponse]. *)
Definition read_chat (r : response) : option (fetched ApiResponse) :=
  if response_ok r then
    match payload r with
    | ChatBody message fallback remaining =>
        Some (Ok {| data_message := message; data_fallback := fallback;
                    data_remaining := remaining |})
    | StatusBody _ _ | ErrorBody _ => None
    end
  else Some (NotOk (status r)).

(** What the client reads of the route's answer to a [GET]. *)
Definition read_probe (r : response) : option (fetched RemainingResponse) :=
  if response_ok r then
    match payload r with
    | StatusBody remaining resetTime =>
        Some (Ok {| probe_remaining := remaining; probe_resetTime := resetTime |})
    | ChatBody _ _ _ | ErrorBody _ => None
    end
  else Some (NotOk (status r)).

(* ===================================================================== *)
(** * Properties *)
(* ===================================================================== *)

(** ** Characters *)

Lemma canonicalize_lt (c : N) : canonicalize c = 60%N <-> c = 60%N.
Proof.
  unfold canonicalize.
  destruct (N.leb_spec 97 c), (N.leb_spec c 122); simpl; lia.
Qed.

Lemma canonicalize_gt (c : N) : canonicalize c = 62%N <-> c = 62%N.
Proof.
  unfold canonicalize.
  destruct (N.leb_spec 97 c), (N.leb_spec c 122); simpl; lia.
Qed.

Lemma canonicalize_word (x a : N) :
  is_word_char a = true -> canonicalize x = canonicalize a ->
  is_word_char x = true.
Proof.
  unfold is_word_char, canonicalize.
  rewrite !orb_true_iff, !andb_true_iff, !N.leb_le, !N.eqb_eq.
  destruct (N.leb_spec 97 x), (N.leb_spec x 122), (N.leb_spec 97 a),
    (N.leb_spec a 122); cbn [andb]; lia.
Qed.

Lemma class_has_lt (c : N) : class_has [60%N] c = negb (bool_decide (c <> 60%N)).
Proof.
  unfold class_has; cbn [existsb]. rewrite orb_false_r.
  case_bool_decide as Hc; cbn [negb].
  - apply N.eqb_neq. intros E. apply Hc, canonicalize_lt. by rewrite <- E.
  - apply N.eqb_eq. by subst.
Qed.

Lemma class_has_brackets (c : N) :
  class_has [60%N; 62%N] c = negb (bool_decide (c <> 60%N /\ c <> 62%N)).
Proof.
  unfold class_has; cbn [existsb]. rewrite orb_false_r.
  case_bool_decide as Hc; cbn [negb].
  - destruct Hc as [H1 H2]. apply orb_false_iff; split; apply N.eqb_neq; intros E.
    + apply H1, canonicalize_lt. by rewrite <- E.
    + apply H2, canonicalize_gt. by rewrite <- E.
  - apply orb_true_iff.
    destruct (decide (c = 60%N)) as [->|H1]; [by left|].
    destruct (decide (c = 62%N)) as [->|H2]; [by right|].
    destruct Hc; done.
Qed.

(** ** The matcher on the patterns of [sanitizeInput] *)

Lemma rmatch_lit (p : list N) (prev : option N) (s : list N) (k : cont) :
  rmatch (fold_right (fun c r => RSeq (RChar c) r) REmpty p) prev s k =
  match ci_strip p prev s with
  | Some (p', s') => k p' s'
  | None => None
  end.
Proof.
  revert prev s. induction p as [|a p IH]; intros prev s;
    cbn [fold_right rmatch ci_strip]; [done|].
  destruct s as [|x s]; [done|].
  destruct (canonicalize x =? canonicalize a)%N; [apply IH | done].
Qed.

Lemma ci_strip_snd (p : list N) (prev : option N) (s : list N) :
  snd <$> ci_strip p prev s = ci_prefix p s.
Proof.
  unfold ci_prefix. generalize (@None N). revert prev s.
  induction p as [|a p IH]; intros prev s o; cbn [ci_strip]; [done|].
  destruct s as [|x s]; [done|].
  destruct (canonicalize x =? canonicalize a)%N; [apply IH | done].
Qed.

Lemma ci_strip_length (p : list N) (prev : option N) (s : list N) p' s' :
  ci_strip p prev s = Some (p', s') -> length s = (length p + length s')%nat.
Proof.
  revert prev s. induction p as [|a p IH]; intros prev s; cbn [ci_strip].
  - by intros [= _ ->].
  - destruct s as [|x s]; [done|].
    destruct (canonicalize x =? canonicalize a)%N; [|done].
    intros H%IH. cbn [length]. lia.
Qed.

Lemma ci_strip_last (p : list N) (a : N) (prev : option N) (s : list N) p' s' :
  ci_strip (p ++ [a]) prev s = Some (p', s') ->
  exists x, p' = Some x /\ canonicalize x = canonicalize a.
Proof.
  revert prev s. induction p as [|b p IH]; intros prev s; cbn [app ci_strip].
  - destruct s as [|x s]; [done|].
    destruct (N.eqb_spec (canonicalize x) (canonicalize a)); [|done].
    intros [= <- _]. eauto.
  - destruct s as [|x s]; [done|].
    destruct (canonicalize x =? canonicalize b)%N; [apply IH | done].
Qed.

Lemma ci_strip_lt_head (p : list N) (prev : option N) (c : N) (s : list N) :
  c <> 60%N -> ci_strip (60%N :: p) prev (c :: s) = None.
Proof.
  intros Hc. cbn [ci_strip].
  destruct (N.eqb_spec (canonicalize c) (canonicalize 60)) as [E|]; [|done].
  change (canonicalize 60) with 60%N in E. exfalso. apply Hc. by apply canonicalize_lt.
Qed.

Lemma skip_not_lt_length (prev : option N) (s : list N) :
  (length (skip_not_lt prev s).2 <= length s)%nat.
Proof.
  revert prev. induction s as [|c s IH]; intros prev; cbn [skip_not_lt]; [done|].
  case_bool_decide; cbn [length]; [|done]. specialize (IH (Some c)). lia.
Qed.

Lemma skip_not_lt_head (prev : option N) (s : list N) :
  (skip_not_lt prev s).2 = [] \/
  exists t, (skip_not_lt prev s).2 = 60%N :: t.
Proof.
  revert prev. induction s as [|c s IH]; intros prev; cbn [skip_not_lt];
    [by left|].
  case_bool_decide as Hc; [apply IH|]. right. exists s. cbn. by subst.
Qed.

(** Greedy [ [^<]* ] before a continuation that needs a [<] next (or the
    end): the iteration runs to the next [<] and never gives a code unit
    back. *)
Lemma star_not_lt (k : cont) (n : nat) (prev : option N) (s : list N) :
  (forall p c t, c <> 60%N -> k p (c :: t) = None) ->
  (length s < n)%nat ->
  star_loop (rmatch not_lt) k n prev s =
  k (skip_not_lt prev s).1 (skip_not_lt prev s).2.
Proof.
  intros Hk. revert n prev.
  induction s as [|c s IH]; intros n prev Hn;
    (destruct n as [|n]; [cbn [length] in Hn; lia|]);
    cbn [star_loop skip_not_lt].
  - done.
  - unfold not_lt at 1. cbn [rmatch]. rewrite class_has_lt.
    case_bool_decide as Hc; cbn [negb xorb fst snd].
    + assert ((length s <? length (c :: s))%nat = true) as ->
        by (apply Nat.ltb_lt; cbn [length]; lia).
      rewrite IH by (cbn [length] in Hn; lia).
      rewrite (Hk prev c s Hc).
      by destruct (k _ _).
    + done.
Qed.

Lemma close_tag_cons : js "</script>" = 60%N :: js "/script>".
Proof. reflexivity. Qed.

Lemma close_rest_unfold (s : list N) :
  close_rest s = match ci_prefix (js "</script>") s with
                 | Some r => Some r
                 | None => match s with [] => None | _ :: s' => close_rest s' end
                 end.
Proof. by destruct s. Qed.

Lemma ci_prefix_close_not_lt (c : N) (s : list N) :
  c <> 60%N -> ci_prefix (js "</script>") (c :: s) = None.
Proof.
  intros Hc. unfold ci_prefix. rewrite close_tag_cons.
  by rewrite ci_strip_lt_head.
Qed.

Lemma close_rest_skip (prev : option N) (s : list N) :
  close_rest (skip_not_lt prev s).2 = close_rest s.
Proof.
  revert prev. induction s as [|c s IH]; intros prev; cbn [skip_not_lt]; [done|].
  case_bool_decide as Hc; [|done].
  rewrite IH. rewrite (close_rest_unfold (c :: s)).
  by rewrite ci_prefix_close_not_lt.
Qed.

Lemma group_loop_stuck (n : nat) (prev : option N) (s : list N) :
  head s <> Some 60%N ->
  star_loop (rmatch script_group) k_close n prev s = None.
Proof.
  intros Hs.
  assert (ci_strip (js "</script>") prev s = None) as Hclose.
  { destruct s as [|c s]; [done|]. rewrite close_tag_cons.
    apply ci_strip_lt_head. intros ->. by apply Hs. }
  assert (k_close prev s = None) as Hk.
  { unfold k_close, script_close, rlit. by rewrite rmatch_lit, Hclose. }
  destruct n as [|n]; cbn [star_loop]; [done|].
  rewrite Hk. unfold script_group at 1. cbn [rmatch].
  unfold script_close, rlit at 1. rewrite rmatch_lit, Hclose.
  destruct s as [|c s]; [done|].
  destruct (N.eqb_spec (canonicalize c) (canonicalize 60)) as [E|]; [|done].
  change (canonicalize 60) with 60%N in E.
  apply (proj1 (canonicalize_lt c)) in E. subst. by destruct Hs.
Qed.

Lemma group_loop (n : nat) (prev : option N) (t : list N) :
  (length (60%N :: t) < n)%nat ->
  star_loop (rmatch script_group) k_close n prev (60%N :: t) = close_rest (60%N :: t).
Proof.
  revert prev t. induction n as [|n IH]; intros prev t Hn; [cbn in Hn; lia|].
  cbn [star_loop]. rewrite (close_rest_unfold (60%N :: t)).
  rewrite <- (ci_strip_snd _ prev).
  assert (k_close prev (60%N :: t)
          = snd <$> ci_strip (js "</script>") prev (60%N :: t)) as Hk.
  { unfold k_close, script_close, rlit. rewrite rmatch_lit. by destruct (ci_strip _ _ _) as [[??]|]. }
  rewrite Hk. unfold script_group at 1. cbn [rmatch].
  unfold script_close, rlit at 1. rewrite rmatch_lit.
  destruct (ci_strip (js "</script>") prev (60%N :: t)) as [[p' r]|] eqn:Hc.
  { done. }
  cbn [fmap option_fmap option_map].
  change (canonicalize 60 =? canonicalize 60)%N with true. cbv iota.
  rewrite star_not_lt; [|intros p c u Hcu|lia].
  2:{ rewrite group_loop_stuck; [by destruct (_ <? _)%nat|].
      cbn. by intros [= ->]. }
  pose proof (skip_not_lt_length (Some 60%N) t) as Hlen.
  assert ((length (skip_not_lt (Some 60%N) t).2 <? length (60%N :: t))%nat = true)
    as -> by (apply Nat.ltb_lt; cbn [length]; lia).
  rewrite <- (close_rest_skip (Some 60%N) t).
  destruct (skip_not_lt_head (Some 60%N) t) as [E|[u E]]; rewrite E in *.
  - by rewrite group_loop_stuck.
  - rewrite IH by (cbn [length] in *; lia). by destruct (close_rest _).
Qed.

Lemma rmatch_script_body (prev : option N) (s : list N) :
  rmatch script_body prev s k_done = close_rest s.
Proof.
  unfold script_body. cbn [rmatch].
  change (fun p' s' => star_loop (rmatch script_group)
                         (fun p t => rmatch script_close p t ?[k]) ?[n] p' s')
    with (fun p' s' => star_loop (rmatch script_group) k_close (S (length s')) p' s').
  rewrite star_not_lt; [|intros p c u Hcu|lia].
  2:{ apply group_loop_stuck. cbn. by intros [= ->]. }
  rewrite <- (close_rest_skip prev s).
  destruct (skip_not_lt_head prev s) as [E|[u E]]; rewrite E.
  - by rewrite group_loop_stuck.
  - apply group_loop. lia.
Qed.

(** One attempt of the script pattern at a position. *)
Lemma exec_script_re (prev : option N) (s : list N) :
  exec script_re prev s = script_fragment s.
Proof.
  unfold exec, script_fragment, script_re. cbn [rmatch].
  unfold rlit at 1. rewrite rmatch_lit. rewrite <- (ci_strip_snd _ prev).
  destruct (ci_strip (js "<script") prev s) as [[p1 s1]|] eqn:Hopen; [|done].
  cbn [fmap option_fmap option_map snd].
  change (js "<script") with (js "<scrip" ++ [116%N]) in Hopen.
  apply ci_strip_last in Hopen as (x & -> & Hx).
  assert (is_word_at (Some x) = true) as ->
    by (cbn; by apply (canonicalize_word x 116%N)).
  destruct (is_word_at (head s1)); cbn [xorb negb]; [done|].
  change (fun (_ : option N) (s' : list N) => Some s') with k_done.
  by rewrite rmatch_script_body.
Qed.

(** *** Script fragments, declaratively *)

Lemma ci_strip_spec (p : list N) :
  forall prev s r,
    snd <$> ci_strip p prev s = Some r <-> exists o, s = o ++ r /\ ci_eq o p.
Proof.
  unfold ci_eq.
  induction p as [|a p IH]; intros prev s r; cbn [ci_strip].
  - cbn. split.
    + intros [= ->]. by exists [].
    + intros (o & -> & Ho). by destruct o.
  - destruct s as [|x s].
    + cbn. split; [done|]. intros (o & Hs & Ho).
      destruct o; [done|]. done.
    + destruct (N.eqb_spec (canonicalize x) (canonicalize a)) as [E|E].
      * rewrite IH. split.
        -- intros (o & -> & Ho). exists (x :: o). cbn. by rewrite E, Ho.
        -- intros (o & Hs & Ho). destruct o as [|y o]; [done|].
           cbn in Hs, Ho. injection Hs as -> ->. injection Ho as _ Ho. eauto.
      * cbn. split; [done|]. intros (o & Hs & Ho).
        destruct o as [|y o]; [done|]. cbn in Hs, Ho.
        injection Hs as -> ->. injection Ho as Hy _. done.
Qed.

Lemma ci_prefix_spec (p s r : list N) :
  ci_prefix p s = Some r <-> exists o, s = o ++ r /\ ci_eq o p.
Proof. apply ci_strip_spec. Qed.

Lemma close_rest_spec (s r : list N) :
  close_rest s = Some r <->
  exists mid cl,
    s = mid ++ cl ++ r /\ ci_eq cl (js "</script>")
    /\ (forall i, (i < length mid)%nat ->
          ci_prefix (js "</script>") (drop i s) = None).
Proof.
  split.
  - induction s as [|c s IH]; rewrite close_rest_unfold.
    + destruct (ci_prefix _ []) as [r'|] eqn:E; [|done].
      intros [= ->]. apply ci_prefix_spec in E as (cl & Hs & Hcl).
      exists [], cl. split; [done|]. split; [done|]. cbn. lia.
    + destruct (ci_prefix _ (c :: s)) as [r'|] eqn:E.
      * intros [= ->]. apply ci_prefix_spec in E as (cl & Hs & Hcl).
        exists [], cl. split; [done|]. split; [done|]. cbn. lia.
      * intros (mid & cl & -> & Hcl & Hmid)%IH.
        exists (c :: mid), cl. split; [done|]. split; [done|].
        intros [|i] Hi; [done|]. rewrite skipn_cons. apply Hmid. cbn in Hi. lia.
  - intros (mid & cl & -> & Hcl & Hmid).
    induction mid as [|c mid IH]; rewrite close_rest_unfold.
    + assert (ci_prefix (js "</script>") ([] ++ cl ++ r) = Some r) as ->; [|done].
      apply ci_prefix_spec. by exists cl.
    + pose proof (Hmid 0%nat ltac:(cbn; lia)) as H0. rewrite drop_0 in H0.
      rewrite H0. cbn [app]. apply IH.
      intros i Hi. apply (Hmid (S i)). cbn. lia.
Qed.

Lemma ci_eq_length (a b : list N) : ci_eq a b -> length a = length b.
Proof.
  unfold ci_eq. intros H. apply (f_equal length) in H.
  by rewrite !length_fmap in H.
Qed.

(** What a script fragment is: an opening [<script] in any case that
    ends a word, then anything up to the first closing tag in any case. *)
Lemma script_fragment_spec (s : list N) (n : nat) :
  script_fragment s = Some n <->
  exists o mid cl r,
    s = o ++ mid ++ cl ++ r
    /\ ci_eq o (js "<script")
    /\ is_word_at (head (mid ++ cl ++ r)) = false
    /\ ci_eq cl (js "</script>")
    /\ (forall i, (i < length mid)%nat ->
          ci_prefix (js "</script>") (drop i (mid ++ cl ++ r)) = None)
    /\ n = length (o ++ mid ++ cl).
Proof.
  unfold script_fragment. split.
  - destruct (ci_prefix (js "<script") s) as [s1|] eqn:Ho; [|done].
    apply ci_prefix_spec in Ho as (o & -> & Ho).
    destruct (is_word_at (head s1)) eqn:Hw; [done|].
    destruct (close_rest s1) as [r|] eqn:Hc; [|done].
    apply close_rest_spec in Hc as (mid & cl & -> & Hcl & Hmid).
    intros [= <-]. exists o, mid, cl, r. repeat split; try done.
    rewrite !length_app. lia.
  - intros (o & mid & cl & r & -> & Ho & Hw & Hcl & Hmid & ->).
    assert (ci_prefix (js "<script") (o ++ mid ++ cl ++ r)
            = Some (mid ++ cl ++ r)) as ->
      by (apply ci_prefix_spec; by exists o).
    rewrite Hw.
    assert (close_rest (mid ++ cl ++ r) = Some r) as ->
      by (apply close_rest_spec; by exists mid, cl).
    f_equal. rewrite !length_app. lia.
Qed.

(** *** Global replacement *)

Lemma replace_from_ext (m m' : option N -> list N -> option nat) :
  (forall prev s, m prev s = m' prev s) ->
  forall skip prev s, replace_from m skip prev s = replace_from m' skip prev s.
Proof.
  intros Hm skip prev s. revert skip prev.
  induction s as [|c s IH]; intros skip prev; cbn [replace_from]; [done|].
  destruct skip as [|n]; [|apply IH].
  rewrite Hm. destruct (m' prev (c :: s)) as [[|n]|]; by rewrite IH.
Qed.

Lemma remove_fragments_replace (skip : nat) (prev : option N) (s : list N) :
  replace_from (fun _ t => script_fragment t) skip prev s = remove_fragments skip s.
Proof.
  revert skip prev.
  induction s as [|c s IH]; intros skip prev;
    cbn [replace_from remove_fragments]; [done|].
  destruct skip as [|n]; [|apply IH].
  destruct (script_fragment (c :: s)) as [[|n]|]; by rewrite IH.
Qed.

Lemma replace_g_script (s : list N) :
  replace_g script_re s = remove_fragments 0 s.
Proof.
  unfold replace_g. rewrite <- (remove_fragments_replace 0 None).
  apply replace_from_ext. intros. apply exec_script_re.
Qed.

Lemma exec_bracket_re (prev : option N) (s : list N) :
  exec bracket_re prev s =
  match s with
  | c :: _ => if bool_decide (c <> 60%N /\ c <> 62%N) then None else Some 1%nat
  | [] => None
  end.
Proof.
  unfold exec, bracket_re. cbn [rmatch]. destruct s as [|c s]; [done|].
  rewrite class_has_brackets. case_bool_decide; cbn [xorb negb]; [done|].
  f_equal. cbn [length]. lia.
Qed.

Lemma replace_g_bracket (s : list N) :
  replace_g bracket_re s = strip_brackets s.
Proof.
  unfold replace_g, strip_brackets. generalize (@None N).
  induction s as [|c s IH]; intros prev; cbn [replace_from]; [done|].
  rewrite exec_bracket_re. rewrite filter_cons.
  case_bool_decide as Hc.
  - rewrite decide_True by done. by rewrite IH.
  - rewrite decide_False by done. apply IH.
Qed.

Lemma sanitizeInput_steps (input : list N) :
  sanitizeInput input = sanitize_steps input.
Proof.
  unfold sanitizeInput, sanitize_steps, slice0.
  by rewrite replace_g_script, replace_g_bracket.
Qed.

(** ** [trim] *)

Lemma trimStart_split (s : list N) :
  exists l, s = l ++ trimStart s /\ Forall (fun c => is_ws c = true) l.
Proof.
  induction s as [|c s (l & E & Hl)]; [by exists []|].
  cbn [trimStart]. destruct (is_ws c) eqn:Hc.
  - exists (c :: l). split; [cbn; congruence | by constructor].
  - by exists [].
Qed.

Lemma trimStart_head (s : list N) :
  forall c, head (trimStart s) = Some c -> is_ws c = false.
Proof.
  induction s as [|x s IH]; intros c; cbn [trimStart]; [done|].
  destruct (is_ws x) eqn:Hx; [apply IH|]. cbn. by intros [= <-].
Qed.

Lemma trimStart_last (s : list N) : 
  forall c, last s = Some c -> is_ws c = false -> last (trimStart s) = Some c.
Proof.
  induction s as [|x s IH]; intros c; cbn [trimStart]; [done|].
  destruct (is_ws x) eqn:Hx; [|done].
  destruct s as [|y s]; [cbn; intros [= <-]; congruence|].
  intros Hl. apply IH. by rewrite last_cons_cons in Hl.
Qed.

(** [trim] removes a run of white space from each end, and all of it. *)
Lemma trim_spec (s : list N) :
  (exists l r, s = l ++ trim s ++ r
     /\ Forall (fun c => is_ws c = true) l
     /\ Forall (fun c => is_ws c = true) r)
  /\ (forall c, head (trim s) = Some c -> is_ws c = false)
  /\ (forall c, last (trim s) = Some c -> is_ws c = false).
Proof.
  unfold trim, trimEnd.
  destruct (trimStart_split s) as (l & El & Hl).
  destruct (trimStart_split (reverse (trimStart s))) as (r & Er & Hr).
  split; [|split].
  - exists l, (reverse r). split; [|split; [done|]].
    + rewrite <- reverse_app, <- Er, reverse_involutive. done.
    + by apply Forall_reverse.
  - intros c Hc.
    destruct (trimStart s) as [|x t] eqn:Et; [done|].
    pose proof (trimStart_head s x) as Hx. rewrite Et in Hx.
    specialize (Hx eq_refl).
    assert (last (reverse (x :: t)) = Some x) as Hlx
        by (by rewrite last_reverse).
    pose proof (trimStart_last _ _ Hlx Hx) as H.
    rewrite head_reverse in Hc. congruence.
  - intros c. rewrite last_reverse. apply trimStart_head.
Qed.

(** ** The iteration bound of the matcher *)

Lemma rmatch_cont_ext (r : regex) :
  forall prev s (k k' : cont),
    (forall p t, (length t <= length s)%nat -> k p t = k' p t) ->
    rmatch r prev s k = rmatch r prev s k'.
Proof.
  induction r as [|c|neg ms|r1 IH1 r2 IH2|r IH|r IH|]; intros prev s k k' Hk;
    cbn [rmatch].
  - by apply Hk.
  - destruct s as [|x s]; [done|]. destruct (_ =? _)%N; [|done].
    apply Hk. cbn [length]. lia.
  - destruct s as [|x s]; [done|]. destruct (xorb _ _); [|done].
    apply Hk. cbn [length]. lia.
  - apply IH1. intros p t Ht. apply IH2. intros p' t' Ht'. apply Hk. lia.
  - generalize (S (length s)). intros n.
    assert (forall t, (length t <= length s)%nat -> forall p,
              star_loop (rmatch r) k n p t = star_loop (rmatch r) k' n p t) as H;
      [|by apply H].
    induction n as [|n IHn]; intros t Ht p; cbn [star_loop]; [by apply Hk|].
    rewrite (Hk p t Ht).
    erewrite IH; [done|]. intros p' t' Ht'. cbn beta.
    destruct (_ <? _)%nat; [|done]. apply IHn. lia.
  - destruct (rmatch r prev s _); [done|]. by apply Hk.
  - destruct (xorb _ _); [|done]. by apply Hk.
Qed.

(** Any bound above the length of the subject gives the same iteration:
    the bound [S (length s)] of [rmatch] is never the reason an iteration
    stops. *)
Lemma star_loop_bound (r : regex) (k : cont) :
  forall n n' prev s, (length s < n)%nat -> (length s < n')%nat ->
    star_loop (rmatch r) k n prev s = star_loop (rmatch r) k n' prev s.
Proof.
  induction n as [|n IH]; intros n' prev s Hn Hn'; [lia|].
  destruct n' as [|n']; [lia|]. cbn [star_loop].
  erewrite rmatch_cont_ext; [done|]. intros p t Ht. cbn beta.
  destruct (Nat.ltb_spec (length t) (length s)); [|done].
  apply IH; lia.
Qed.

(** ** The sanitizer *)

Lemma sanitizeInput_clean (input : list N) :
  (length (sanitizeInput input) <= 1000)%nat
  /\ Forall (fun c => c <> 60%N /\ c <> 62%N) (sanitizeInput input).
Proof.
  rewrite sanitizeInput_steps. unfold sanitize_steps. split.
  - rewrite length_take. lia.
  - apply Forall_take, Forall_forall. unfold strip_brackets.
    intros c Hc%list_elem_of_filter. tauto.
Qed.

(** C6.  [sanitizeInput] is a total function (the iteration bound of the
    matcher is never what stops an iteration, [star_loop_bound]) that
    applies, in this order: [trim], which strips the white space at both
    ends and nothing else; the removal of every script fragment, leftmost
    first (a fragment is an opening [<script] that ends a word, letters in
    either case, anything up to the first closing tag, and that tag); the
    removal of every remaining [<] and [>]; and the truncation to 1000
    code units.  Its result has at most 1000 code
    units and no angle bracket.  2000 letters [a] give 1000 letters [a],
    and the script example of the specification gives [hi  there]. *)
Theorem sanitizeInput_contract :
  (forall input,
      sanitizeInput input
      = take 1000 (strip_brackets (remove_fragments 0 (trim input))))
  /\ (forall s n,
        script_fragment s = Some n <->
        exists o mid cl r,
          s = o ++ mid ++ cl ++ r
          /\ ci_eq o (js "<script")
          /\ is_word_at (head (mid ++ cl ++ r)) = false
          /\ ci_eq cl (js "</script>")
          /\ (forall i, (i < length mid)%nat ->
                ci_prefix (js "</script>") (drop i (mid ++ cl ++ r)) = None)
          /\ n = length (o ++ mid ++ cl))
  /\ (forall input,
        (exists l r, input = l ++ trim input ++ r
           /\ Forall (fun c => is_ws c = true) l
           /\ Forall (fun c => is_ws c = true) r)
        /\ (forall c, head (trim input) = Some c -> is_ws c = false)
        /\ (forall c, last (trim input) = Some c -> is_ws c = false))
  /\ (forall input,
        (length (sanitizeInput input) <= 1000)%nat
        /\ Forall (fun c => c <> 60%N /\ c <> 62%N) (sanitizeInput input))
  /\ sanitizeInput (replicate 2000 97%N) = replicate 1000 97%N
  /\ sanitizeInput (js "hi <script>alert(1)</script> there") = js "hi  there".
Proof.
  split; [apply sanitizeInput_steps|].
  split; [apply script_fragment_spec|].
  split; [apply trim_spec|].
  split; [apply sanitizeInput_clean|].
  split; vm_compute; reflexivity.
Qed.

(** More inputs of the sanitizer: tags in mixed case with attributes, a
    fragment without its closing tag, an opening that does not end a word,
    and nothing but a script fragment. *)
Example sanitizeInput_mixed_case :
  sanitizeInput (js "  hi <SCRIPT src=x>alert(1)<b></script > x</ScRiPt> <there>  ")
  = js "hi  there".
Proof. vm_compute. reflexivity. Qed.

Example sanitizeInput_unclosed :
  sanitizeInput (js "<script>alert(1)") = js "scriptalert(1)".
Proof. vm_compute. reflexivity. Qed.

Example sanitizeInput_longer_word :
  sanitizeInput (js "<scripts>x</script>") = js "scriptsx/script".
Proof. vm_compute. reflexivity. Qed.

Example sanitizeInput_script_only :
  sanitizeInput (js "<script></script>") = [].
Proof. vm_compute. reflexivity. Qed.

(** ** The expiry sweep *)

Lemma lookup_sweep (now : Z) (st : store) (ip : list N) :
  sweep now st !! ip =
  match st !! ip with
  | Some v => if expired now v then None else Some v
  | None => None
  end.
Proof.
  unfold sweep. destruct (st !! ip) as [v|] eqn:E.
  - destruct (expired now v) eqn:Ev.
    + apply map_lookup_filter_None. right. intros v' E'. cbn. congruence.
    + apply map_lookup_filter_Some. done.
  - apply map_lookup_filter_None. by left.
Qed.

Lemma expired_mono (t t' : Z) (v : quota) :
  t' <= t -> expired t' v = true -> expired t v = true.
Proof. unfold expired. rewrite !Z.ltb_lt. lia. Qed.

Lemma sweep_sweep (t t' : Z) (st : store) :
  t' <= t -> sweep t (sweep t' st) = sweep t st.
Proof.
  intros Ht. apply map_eq. intros ip. rewrite !lookup_sweep.
  destruct (st !! ip) as [v|]; [|done].
  destruct (expired t' v) eqn:E'; [|done].
  by rewrite (expired_mono t t' v Ht E').
Qed.

Lemma sweep_idemp (t : Z) (st : store) : sweep t (sweep t st) = sweep t st.
Proof. by apply sweep_sweep. Qed.

Lemma sweep_id (t : Z) (st : store) :
  (forall ip v, st !! ip = Some v -> expired t v = false) -> sweep t st = st.
Proof.
  intros H. apply map_eq. intros ip. rewrite lookup_sweep.
  destruct (st !! ip) as [v|] eqn:E; [|done]. by rewrite (H ip v E).
Qed.

Lemma sweep_insert (t : Z) (st : store) (ip : list N) (v : quota) :
  expired t v = false -> sweep t (<[ip := v]> st) = <[ip := v]> (sweep t st).
Proof.
  intros Hv. apply map_eq. intros j. rewrite lookup_sweep.
  destruct (decide (ip = j)) as [->|Hne].
  - rewrite !lookup_insert_eq. by rewrite Hv.
  - rewrite !lookup_insert_ne by done. by rewrite lookup_sweep.
Qed.

Lemma sweep_delete (t : Z) (st : store) (ip : list N) :
  sweep t (delete ip st) = delete ip (sweep t st).
Proof. apply map_filter_delete. Qed.

Lemma sweep_delete_expired (t : Z) (st : store) (ip : list N) (v : quota) :
  st !! ip = Some v -> expired t v = true -> sweep t (delete ip st) = sweep t st.
Proof.
  intros E Hv. apply map_eq. intros j. rewrite !lookup_sweep.
  destruct (decide (ip = j)) as [<-|Hne].
  - by rewrite lookup_delete_eq, E, Hv.
  - by rewrite lookup_delete_ne.
Qed.

(** ** [checkRateLimit], branch by branch *)

Lemma checkRateLimit_first (ip : list N) (now : Z) (st : store) :
  st !! ip = None ->
  checkRateLimit ip now st =
  ({| allowed := true; remaining := 49 |},
   <[ip := fresh_record now]> (sweep now st)).
Proof.
  intros E. unfold checkRateLimit. cbv zeta. by rewrite lookup_sweep, E.
Qed.

Lemma checkRateLimit_expired (ip : list N) (now : Z) (st : store) (v : quota) :
  st !! ip = Some v -> expired now v = true ->
  checkRateLimit ip now st =
  ({| allowed := true; remaining := 49 |},
   <[ip := fresh_record now]> (sweep now st)).
Proof.
  intros E Hv. unfold checkRateLimit. cbv zeta. by rewrite lookup_sweep, E, Hv.
Qed.

Lemma checkRateLimit_live (ip : list N) (now : Z) (st : store) (v : quota) :
  st !! ip = Some v -> expired now v = false -> count v < dailyLimit ->
  checkRateLimit ip now st =
  ({| allowed := true; remaining := dailyLimit - (count v + 1) |},
   <[ip := {| count := count v + 1; resetTime := resetTime v |}]> (sweep now st)).
Proof.
  intros E Hv Hc. unfold checkRateLimit. cbv zeta.
  rewrite lookup_sweep, E, Hv, Hv.
  destruct (Z.leb_spec dailyLimit (count v)); [lia|done].
Qed.

Lemma checkRateLimit_exhausted (ip : list N) (now : Z) (st : store) (v : quota) :
  st !! ip = Some v -> expired now v = false -> dailyLimit <= count v ->
  checkRateLimit ip now st =
  ({| allowed := false; remaining := 0 |}, sweep now st).
Proof.
  intros E Hv Hc. unfold checkRateLimit. cbv zeta.
  rewrite lookup_sweep, E, Hv, Hv.
  destruct (Z.leb_spec dailyLimit (count v)); [done|lia].
Qed.

(** A call of one caller leaves the live records of the others alone. *)
Lemma checkRateLimit_frame (ip other : list N) (now : Z) (st : store)
    (v : quota) :
  other <> ip -> st !! other = Some v -> now <= resetTime v ->
  (checkRateLimit ip now st).2 !! other = Some v.
Proof.
  intros Hne E Hv. unfold expired in *.
  assert (sweep now st !! other = Some v) as Es.
  { rewrite lookup_sweep, E. unfold expired.
    by destruct (Z.ltb_spec (resetTime v) now); [lia|]. }
  unfold checkRateLimit. cbv zeta.
  destruct (sweep now st !! ip) as [u|].
  - destruct (expired now u); cbn [snd];
      [by rewrite lookup_insert_ne|].
    destruct (dailyLimit <=? count u); cbn [snd]; [done|].
    by rewrite lookup_insert_ne.
  - cbn [snd]. by rewrite lookup_insert_ne.
Qed.

(** ** Runs of one caller inside a window *)

Lemma live_not_expired (now : Z) (v : quota) :
  now <= resetTime v <-> expired now v = false.
Proof. unfold expired. rewrite Z.ltb_ge. done. Qed.

Lemma expired_iff (now : Z) (v : quota) :
  resetTime v < now <-> expired now v = true.
Proof. unfold expired. by rewrite Z.ltb_lt. Qed.

Lemma consume_all_live (ip : list N) (ts : list Z) :
  forall (st : store) (v : quota),
    st !! ip = Some v ->
    Forall (fun t => t <= resetTime v) ts ->
    (consume_all ip ts st).1
    = (fun i => call_result (count v + Z.of_nat i)) <$> seq 1 (length ts)
    /\ (consume_all ip ts st).2 !! ip
      = Some {| count := Z.max (count v)
                           (Z.min (count v + Z.of_nat (length ts)) dailyLimit);
                resetTime := resetTime v |}.
Proof.
  induction ts as [|t ts IH]; intros st v E Hts.
  - cbn [consume_all fst snd length seq fmap list_fmap]. split; [done|].
    rewrite E. destruct v as [c r]. cbn [count resetTime]. f_equal. f_equal.
    unfold dailyLimit. lia.
  - apply Forall_cons in Hts as [Ht Hts]. apply live_not_expired in Ht.
    cbn [consume_all length seq fmap list_fmap].
    destruct (Z.lt_ge_cases (count v) dailyLimit) as [Hc|Hc].
    + rewrite (checkRateLimit_live ip t st v E Ht Hc).
      set (v' := {| count := count v + 1; resetTime := resetTime v |}).
      specialize (IH (<[ip := v']> (sweep t st)) v' (lookup_insert_eq _ _ _) Hts).
      destruct (consume_all ip ts _) as [rs st']. cbn [fst snd] in *.
      destruct IH as [-> ->]. split.
      * f_equal.
        -- unfold call_result. cbn [count v'].
           destruct (Z.leb_spec (count v + Z.of_nat 1) dailyLimit); [f_equal; lia|].
           lia.
        -- rewrite <- (fmap_S_seq 1), <- list_fmap_compose.
           apply list_fmap_ext. intros i x _. cbn. f_equal. lia.
      * f_equal. cbn [count resetTime v']. f_equal. unfold dailyLimit in *. lia.
    + rewrite (checkRateLimit_exhausted ip t st v E Ht Hc).
      assert (sweep t st !! ip = Some v) as E'
          by (by rewrite lookup_sweep, E, Ht).
      specialize (IH (sweep t st) v E' Hts).
      destruct (consume_all ip ts _) as [rs st']. cbn [fst snd] in *.
      destruct IH as [-> ->]. split.
      * f_equal.
        -- unfold call_result.
           destruct (Z.leb_spec (count v + Z.of_nat 1) dailyLimit); [lia|done].
        -- rewrite <- (fmap_S_seq 1), <- list_fmap_compose.
           apply list_fmap_ext. intros i x [-> _]%lookup_seq.
           cbn [compose]. unfold call_result.
           destruct (Z.leb_spec (count v + Z.of_nat (S (1 + i))) dailyLimit); [lia|].
           destruct (Z.leb_spec (count v + Z.of_nat (1 + i)) dailyLimit); [lia|done].
      * f_equal. f_equal. unfold dailyLimit in *. lia.
Qed.

Lemma consume_all_fresh (ip : list N) (now : Z) (ts : list Z) (st : store) :
  (st !! ip = None \/ exists v, st !! ip = Some v /\ resetTime v < now) ->
  Forall (fun t => t <= now + DAY) ts ->
  (consume_all ip (now :: ts) st).1
  = (fun i => call_result (Z.of_nat i)) <$> seq 1 (S (length ts))
  /\ (consume_all ip (now :: ts) st).2 !! ip
    = Some {| count := Z.min (Z.of_nat (S (length ts))) dailyLimit;
              resetTime := now + DAY |}.
Proof.
  intros Hfresh Hts.
  assert (checkRateLimit ip now st =
          ({| allowed := true; remaining := 49 |},
           <[ip := fresh_record now]> (sweep now st))) as Hfirst.
  { destruct Hfresh as [E|(v & E & Hv)].
    - by apply checkRateLimit_first.
    - apply expired_iff in Hv. by apply (checkRateLimit_expired ip now st v). }
  cbn [consume_all]. rewrite Hfirst.
  destruct (consume_all_live ip ts (<[ip := fresh_record now]> (sweep now st))
              (fresh_record now) (lookup_insert_eq _ _ _) Hts) as [Hr Hs].
  destruct (consume_all ip ts _) as [rs st']. cbn [fst snd] in *.
  subst rs. rewrite Hs. split.
  - cbn [seq fmap list_fmap]. f_equal.
    rewrite <- (fmap_S_seq 1), <- list_fmap_compose.
    apply list_fmap_ext. intros i x _. cbn [compose fresh_record count].
    f_equal. lia.
  - f_equal. cbn [fresh_record count resetTime]. f_equal.
    unfold dailyLimit. lia.
Qed.

(** ** The handlers and the store *)

Lemma GET_store (req : request) (w : world) (st : store) :
  (GET req w st).2 = if fault w then st else sweep (now w) st.
Proof.
  unfold GET, GET_try. destruct (fault w); [done|]. cbv zeta.
  destruct (sweep (now w) st !! getClientIP req) as [v|]; [|done].
  by destruct (expired (now w) v).
Qed.

Lemma GET_response (req : request) (w : world) (st : store) :
  fault w = false ->
  (GET req w st).1 =
  match st !! getClientIP req with
  | Some v =>
      if expired (now w) v
      then respond (StatusBody dailyLimit (now w + DAY))
      else respond (StatusBody (Z.max 0 (dailyLimit - count v)) (resetTime v))
  | None => respond (StatusBody dailyLimit (now w + DAY))
  end.
Proof.
  intros Hf. unfold GET, GET_try. rewrite Hf. cbv zeta. rewrite lookup_sweep.
  destruct (st !! getClientIP req) as [v|]; [|done].
  destruct (expired (now w) v) eqn:Ev; [done|]. by rewrite Ev.
Qed.

Lemma GET_fault (req : request) (w : world) (st : store) :
  fault w = true -> GET req w st = (GET_catch w, st).
Proof. intros Hf. unfold GET, GET_try. by rewrite Hf. Qed.

Lemma sanitizeInput_nil : sanitizeInput [] = [].
Proof. reflexivity. Qed.

(** [POST] once the message has passed both checks. *)
Lemma POST_accepted (req : request) (w : world) (st : store) (m : list N) :
  fault w = false -> carries_message req m ->
  POST req w st =
  let rl := (checkRateLimit (getClientIP req) (now w) st).1 in
  let st' := (checkRateLimit (getClientIP req) (now w) st).2 in
  if allowed rl then
    match GEMINI_API_KEY w with
    | Some (_ :: _) => (generate w (sanitizeInput m) (remaining rl), st')
    | _ => (Some (respond (ChatBody (fallbackResponse w) true (remaining rl))), st')
    end
  else (Some (respond (ChatBody LIMIT_MESSAGE true 0)), st').
Proof.
  intros Hf (parsed & Hbody & Hmsg & Hsan).
  unfold POST, POST_try. rewrite Hf, Hbody, Hmsg.
  destruct m as [|c m]; [by rewrite sanitizeInput_nil in Hsan|].
  cbn [truthy negb as_string].
  destruct (sanitizeInput (c :: m)) as [|c' m'] eqn:Es; [done|].
  destruct (checkRateLimit (getClientIP req) (now w) st) as [rl st'].
  cbn [fst snd]. destruct (allowed rl); cbn [negb]; [|done].
  destruct (GEMINI_API_KEY w) as [[|k ks]|]; [done| |done].
  destruct (generate w (c' :: m') (remaining rl)); done.
Qed.

Lemma POST_store (req : request) (w : world) (st : store) :
  (POST req w st).2 = st
  \/ (POST req w st).2 = (checkRateLimit (getClientIP req) (now w) st).2.
Proof.
  unfold POST, POST_try. destruct (fault w); [by left|].
  destruct (json_body req) as [parsed|]; [|by left].
  destruct (destructure_message parsed) as [message|]; [|by left].
  destruct (if negb (truthy message) then None else as_string message);
    [|by left].
  destruct (sanitizeInput l); [by left|]. right.
  destruct (checkRateLimit (getClientIP req) (now w) st) as [rl st'].
  cbn [snd]. destruct (negb (allowed rl)); [done|].
  destruct (GEMINI_API_KEY w) as [[|k ks]|]; [done| |done].
  destruct (generate w _ (remaining rl)); done.
Qed.

(** ** The invariant of the store *)

Lemma counts_bounded_sweep (now : Z) (st : store) :
  counts_bounded st -> counts_bounded (sweep now st).
Proof.
  intros H ip v. rewrite lookup_sweep.
  destruct (st !! ip) as [v'|] eqn:E; [|done].
  destruct (expired now v'); [done|]. intros [= <-]. by apply (H ip).
Qed.

Lemma counts_bounded_checkRateLimit (ip : list N) (now : Z) (st : store) :
  counts_bounded st -> counts_bounded (checkRateLimit ip now st).2.
Proof.
  intros H. pose proof (counts_bounded_sweep now st H) as Hs.
  assert (forall v, 1 <= count v <= dailyLimit ->
            counts_bounded (<[ip := v]> (sweep now st))) as Hins.
  { intros v Hv j u. destruct (decide (ip = j)) as [<-|Hne].
    - rewrite lookup_insert_eq. by intros [= <-].
    - rewrite lookup_insert_ne by done. apply Hs. }
  unfold checkRateLimit. cbv zeta.
  destruct (sweep now st !! ip) as [v|] eqn:E.
  - destruct (expired now v); [apply Hins; cbn; unfold dailyLimit; lia|].
    destruct (Z.leb_spec dailyLimit (count v)); [done|].
    apply Hins. cbn. specialize (Hs ip v E). lia.
  - apply Hins. cbn. unfold dailyLimit. lia.
Qed.

Lemma reachable_counts_bounded (st : store) :
  reachable st -> counts_bounded st.
Proof.
  induction 1 as [|req w st _ IH|req w st _ IH].
  - intros ip v. by rewrite lookup_empty.
  - rewrite GET_store. destruct (fault w); [done|]. by apply counts_bounded_sweep.
  - destruct (POST_store req w st) as [-> | ->]; [done|].
    by apply counts_bounded_checkRateLimit.
Qed.

(** ** The gateway, case by case *)

Lemma as_string_truthy (message : option json) (m : list N) :
  (if negb (truthy message) then None else as_string message) = Some m <->
  message = Some (JString m) /\ m <> [].
Proof.
  split.
  - destruct message as [[|b|mm e|s|items|fields]|]; cbn [truthy as_string];
      try (by destruct (negb _)).
    destruct s; cbn [negb]; [done|]. by intros [= <-].
  - intros [-> Hm]. destruct m; done.
Qed.

Lemma validate_accepted (req : request) (m : list N) :
  validate req = Accepted m <-> carries_message req m.
Proof.
  unfold validate, carries_message. split.
  - destruct (json_body req) as [parsed|]; [|done].
    destruct (destructure_message parsed) as [message|] eqn:Hd; [|done].
    destruct (if negb (truthy message) then None else as_string message)
      as [m'|] eqn:Hm; [|done].
    apply as_string_truthy in Hm as [-> _].
    destruct (sanitizeInput m') eqn:Hs; [done|]. intros [= <-].
    exists parsed. by rewrite Hs.
  - intros (parsed & -> & -> & Hs).
    assert (m <> []) as Hm by (intros ->; by rewrite sanitizeInput_nil in Hs).
    rewrite (proj2 (as_string_truthy _ m)) by done.
    by destruct (sanitizeInput m).
Qed.

(** [POST] by the verdict on the request. *)
Lemma POST_by_verdict (req : request) (w : world) (st : store) :
  POST req w st =
  if fault w then (Some (POST_catch w), st) else
  match validate req with
  | BodyUnreadable => (Some (POST_catch w), st)
  | MessageMissing =>
      (Some (respond_with 400
               (ErrorBody (js "Message is required and must be a string"))), st)
  | MessageEmpty =>
      (Some (respond_with 400 (ErrorBody (js "Invalid message content"))), st)
  | Accepted m =>
      let rl := (checkRateLimit (getClientIP req) (now w) st).1 in
      let st' := (checkRateLimit (getClientIP req) (now w) st).2 in
      if allowed rl then
        match GEMINI_API_KEY w with
        | Some (_ :: _) => (generate w (sanitizeInput m) (remaining rl), st')
        | _ => (Some (respond (ChatBody (fallbackResponse w) true (remaining rl))),
                st')
        end
      else (Some (respond (ChatBody LIMIT_MESSAGE true 0)), st')
  end.
Proof.
  destruct (fault w) eqn:Hf; [unfold POST, POST_try; by rewrite Hf|].
  destruct (validate req) as [| | |m] eqn:Hv.
  4:{ apply POST_accepted; [done|]. by apply validate_accepted. }
  all: unfold POST, POST_try, validate in *; rewrite Hf.
  all: destruct (json_body req) as [parsed|]; [|done].
  all: destruct (destructure_message parsed) as [message|]; [|done].
  all: destruct (if negb (truthy message) then None else as_string message)
         as [m|]; [|done].
  all: by destruct (sanitizeInput m).
Qed.

Lemma fallbackResponse_in_pool (w : world) :
  fallbackResponse w ∈ FALLBACK_RESPONSES.
Proof.
  unfold fallbackResponse. apply list_elem_of_In, nth_In.
  apply (fin_to_nat_lt (random_index w)).
Qed.

Lemma pool_not_empty (m : list N) : m ∈ FALLBACK_RESPONSES -> m <> [].
Proof.
  unfold FALLBACK_RESPONSES. rewrite !elem_of_cons, elem_of_nil.
  intros [->|[->|[->|[->|[->|[]]]]]]; discriminate.
Qed.

Lemma LIMIT_MESSAGE_not_in_pool : LIMIT_MESSAGE ∉ FALLBACK_RESPONSES.
Proof.
  unfold FALLBACK_RESPONSES. rewrite !elem_of_cons, elem_of_nil.
  intros [H|[H|[H|[H|[H|[]]]]]]; vm_compute in H; discriminate H.
Qed.

(** The upstream call fails: [generate] answers with a fallback. *)
Lemma generate_failure (w : world) (s : list N) (remaining : Z) :
  generateContent w (prompt_of s) = Rejected
  \/ generateContent w (prompt_of s) = Fulfilled None
  \/ generateContent w (prompt_of s) = Fulfilled (Some []) ->
  generate w s remaining
  = Some (respond (ChatBody (fallbackResponse w) true remaining)).
Proof. unfold generate. by intros [->|[->| ->]]. Qed.

Lemma generate_none (w : world) (s : list N) (remaining : Z) :
  generate w s remaining = None <-> generateContent w (prompt_of s) = Pending.
Proof.
  unfold generate. destruct (generateContent w (prompt_of s)) as [[[|c t]|]| |];
    split; done.
Qed.

Lemma generate_status (w : world) (s : list N) (remaining : Z) (r : response) :
  generate w s remaining = Some r -> status r = 200.
Proof.
  unfold generate. destruct (generateContent w (prompt_of s)) as [[[|c t]|]| |];
    try done; by intros [= <-].
Qed.

(** The caller's identity: the first entry of the forwarded chain, else
    the real address, else the sentinel. *)
Example getClientIP_forwarded : getClientIP hello_request = ip0.
Proof. vm_compute. reflexivity. Qed.

Example getClientIP_real_ip :
  getClientIP {| x_forwarded_for := Some []; x_real_ip := Some ip0;
                 json_body := None |} = ip0.
Proof. vm_compute. reflexivity. Qed.

Example getClientIP_unknown :
  getClientIP {| x_forwarded_for := None; x_real_ip := None;
                 json_body := None |} = js "unknown".
Proof. vm_compute. reflexivity. Qed.

(** A message that is nothing but a script fragment is refused with 400,
    and consumes no quota. *)
Example POST_script_only :
  POST (request_with
          (Some (JObject [(js "message", JString (js "<script></script>"))])))
       (quiet_world 0) ∅
  = (Some {| status := 400;
             payload := ErrorBody (js "Invalid message content") |}, ∅).
Proof. vm_compute. reflexivity. Qed.

(** ** The quota tracker: contract, invariant and status probe *)

(** C1.  The contract of [checkRateLimit] (the specification's
    [checkAndConsume]), for a caller [ip] at time [now] on any store.
    - No record, or a record whose window has expired: the record becomes
      [count = 1], [resetTime = now + 24h]; the answer is allowed with 49
      remaining.
    - A live record with [count < 50]: the count goes up by one; the answer
      is allowed with [50 - count] remaining, [count] being the new count.
    - A live record with [count >= 50]: the answer is refused with 0
      remaining; the caller's record is untouched, and the store is changed
      by nothing but the expiry sweep every call starts with (not at all
      when no record of it has expired).
    - From a first call at [now], the calls of one window answer 49, 48,
      ..., 0 remaining, one less each time, the calls after the 50th are
      refused with 0 remaining, and the record stays at [count = 50]. *)
Theorem checkRateLimit_contract (ip : list N) (now : Z) (st : store) :
  ((st !! ip = None \/ exists v, st !! ip = Some v /\ resetTime v < now) ->
     checkRateLimit ip now st
     = ({| allowed := true; remaining := 49 |},
        <[ip := {| count := 1; resetTime := now + 24 * 60 * 60 * 1000 |}]>
          (sweep now st)))
  /\ (forall v, st !! ip = Some v -> now <= resetTime v -> count v < 50 ->
        checkRateLimit ip now st
        = ({| allowed := true; remaining := 50 - (count v + 1) |},
           <[ip := {| count := count v + 1; resetTime := resetTime v |}]>
             (sweep now st)))
  /\ (forall v, st !! ip = Some v -> now <= resetTime v -> 50 <= count v ->
        checkRateLimit ip now st
        = ({| allowed := false; remaining := 0 |}, sweep now st)
        /\ sweep now st !! ip = Some v
        /\ ((forall j u, st !! j = Some u -> now <= resetTime u) ->
            sweep now st = st))
  /\ (forall ts,
        (st !! ip = None \/ exists v, st !! ip = Some v /\ resetTime v < now) ->
        Forall (fun t => t <= now + 24 * 60 * 60 * 1000) ts ->
        (consume_all ip (now :: ts) st).1
        = (fun k => if (k <=? 50)%nat
                    then {| allowed := true; remaining := 50 - Z.of_nat k |}
                    else {| allowed := false; remaining := 0 |})
            <$> seq 1 (S (length ts))
        /\ (consume_all ip (now :: ts) st).2 !! ip
          = Some {| count := Z.of_nat (S (length ts) `min` 50);
                    resetTime := now + 24 * 60 * 60 * 1000 |}).
Proof.
  split; [|split; [|split]].
  - intros [E|(v & E & Hv)].
    + by apply checkRateLimit_first.
    + apply expired_iff in Hv. by apply (checkRateLimit_expired ip now st v).
  - intros v E Hv Hc. apply live_not_expired in Hv.
    by apply checkRateLimit_live.
  - intros v E Hv Hc. split; [|split].
    + apply live_not_expired in Hv. by apply (checkRateLimit_exhausted ip now st v).
    + apply live_not_expired in Hv. by rewrite lookup_sweep, E, Hv.
    + intros Hall. apply sweep_id. intros j u Hj. by apply live_not_expired, (Hall j).
  - intros ts Hfresh Hts.
    destruct (consume_all_fresh ip now ts st Hfresh Hts) as [-> ->]. split.
    + apply list_fmap_ext. intros i k _. unfold call_result, dailyLimit.
      destruct (Z.leb_spec (Z.of_nat k) 50), (Nat.leb_spec k 50); done || lia.
    + f_equal. f_equal. unfold dailyLimit. lia.
Qed.

(** [checkRateLimit_contract] on a first call, on a live record of 7
    requests, on an exhausted one, and on a window of three calls. *)
Lemma checkRateLimit_contract_witness :
  checkRateLimit ip0 1000 ∅
  = ({| allowed := true; remaining := 49 |},
     <[ip0 := {| count := 1; resetTime := 1000 + 24 * 60 * 60 * 1000 |}]>
       (sweep 1000 ∅))
  /\ checkRateLimit ip0 2000 {[ ip0 := {| count := 7; resetTime := 5000 |} ]}
     = ({| allowed := true; remaining := 50 - (7 + 1) |},
        <[ip0 := {| count := 7 + 1; resetTime := 5000 |}]>
          (sweep 2000 {[ ip0 := {| count := 7; resetTime := 5000 |} ]}))
  /\ checkRateLimit ip0 2000 {[ ip0 := {| count := 50; resetTime := 5000 |} ]}
     = ({| allowed := false; remaining := 0 |},
        sweep 2000 {[ ip0 := {| count := 50; resetTime := 5000 |} ]})
  /\ (consume_all ip0 [1000; 1001; 1002] ∅).1
     = [ {| allowed := true; remaining := 49 |};
         {| allowed := true; remaining := 48 |};
         {| allowed := true; remaining := 47 |} ].
Proof.
  split; [|split; [|split]].
  - apply (proj1 (checkRateLimit_contract ip0 1000 ∅)). left. apply lookup_empty.
  - apply (proj1 (proj2 (checkRateLimit_contract ip0 2000 _))
             {| count := 7; resetTime := 5000 |}).
    + apply lookup_singleton_eq.
    + cbn. lia.
    + cbn. lia.
  - apply (proj1 (proj2 (proj2 (checkRateLimit_contract ip0 2000 _)))
             {| count := 50; resetTime := 5000 |}).
    + apply lookup_singleton_eq.
    + cbn. lia.
    + cbn. lia.
  - apply (proj1 (proj2 (proj2 (proj2 (checkRateLimit_contract ip0 1000 ∅)))
                    [1001; 1002] (or_introl (lookup_empty _))
                    ltac:(repeat constructor; lia))).
Defined.

Lemma checkRateLimit_sweep (ip : list N) (t t' : Z) (st : store) :
  t' <= t -> checkRateLimit ip t (sweep t' st) = checkRateLimit ip t st.
Proof. intros Ht. unfold checkRateLimit. cbv zeta. by rewrite sweep_sweep. Qed.

Lemma checkRateLimit_forgets_expired (ip : list N) (now : Z) (st : store) (v : quota) :
  st !! ip = Some v -> resetTime v < now ->
  checkRateLimit ip now st = checkRateLimit ip now (delete ip st).
Proof.
  intros E Hv%expired_iff.
  rewrite (checkRateLimit_expired ip now st v E Hv).
  rewrite (checkRateLimit_first ip now (delete ip st)) by apply lookup_delete_eq.
  by rewrite (sweep_delete_expired now st ip v).
Qed.

(** C3 as stated fails at [now = windowResetAt]: after 50 calls at time 0
    the window resets at 86400000; a call at exactly that time is still
    refused, where a first-ever call is allowed with 49 remaining. *)
Lemma window_boundary_still_rejects :
  let st := (consume_all ip0 (replicate 50 0) ∅).2 in
  st !! ip0 = Some {| count := 50; resetTime := 86400000 |}
  /\ (checkRateLimit ip0 86400000 st).1 = {| allowed := false; remaining := 0 |}
  /\ (checkRateLimit ip0 86400000 ∅).1 = {| allowed := true; remaining := 49 |}.
Proof.
  cbv zeta.
  assert ((consume_all ip0 (replicate 50 0) ∅).2 !! ip0
          = Some {| count := 50; resetTime := 86400000 |}) as E.
  { change (replicate 50 0) with (0 :: replicate 49 0).
    rewrite (proj2 (consume_all_fresh ip0 0 (replicate 49 0) ∅
                      (or_introl (lookup_empty _))
                      ltac:(apply Forall_replicate; unfold DAY; lia))).
    by rewrite length_replicate. }
  split; [exact E|]. split.
  - by rewrite (checkRateLimit_exhausted _ _ _ _ E).
  - by rewrite checkRateLimit_first by apply lookup_empty.
Qed.

(** C3 (amended).  In every reachable store each record's count lies in
    [0, 50].  A caller whose count is 50 is refused exactly while
    [now <= windowResetAt]; once [now > windowResetAt] the next call
    behaves exactly as a first-ever call (the call on the store without
    the caller's record): it leaves [count = 1] and a new window, and
    answers 49 remaining. *)
Theorem quota_window_invariant :
  (forall st, reachable st ->
     forall ip v, st !! ip = Some v -> 0 <= count v <= 50)
  /\ (forall ip now st v, st !! ip = Some v -> count v = 50 ->
        (allowed (checkRateLimit ip now st).1 = false <-> now <= resetTime v))
  /\ (forall ip now st v, st !! ip = Some v -> resetTime v < now ->
        checkRateLimit ip now st = checkRateLimit ip now (delete ip st)
        /\ (checkRateLimit ip now st).1 = {| allowed := true; remaining := 49 |}
        /\ (checkRateLimit ip now st).2 !! ip
           = Some {| count := 1; resetTime := now + 24 * 60 * 60 * 1000 |}).
Proof.
  split; [|split].
  - intros st Hst ip v E.
    pose proof (reachable_counts_bounded st Hst ip v E). unfold dailyLimit in *. lia.
  - intros ip now st v E Hc.
    destruct (Z.le_gt_cases now (resetTime v)) as [Hv|Hv].
    + rewrite (checkRateLimit_exhausted ip now st v E);
        [done|by apply live_not_expired|unfold dailyLimit; lia].
    + rewrite (checkRateLimit_expired ip now st v E) by (by apply expired_iff).
      cbn. split; [done|lia].
  - intros ip now st v E Hv. split; [by apply (checkRateLimit_forgets_expired _ _ _ v)|].
    rewrite (checkRateLimit_expired ip now st v E) by (by apply expired_iff).
    split; [done|]. apply lookup_insert_eq.
Qed.

(** [quota_window_invariant] on the store one accepted [POST] leaves, and
    on an exhausted record at and just after the end of its window. *)
Lemma quota_window_invariant_witness :
  (0 <= count {| count := 1; resetTime := 5 + DAY |} <= 50)
  /\ (allowed (checkRateLimit ip0 1000
                 {[ ip0 := {| count := 50; resetTime := 1000 |} ]}).1 = false
      <-> 1000 <= resetTime {| count := 50; resetTime := 1000 |})
  /\ (checkRateLimit ip0 1001 {[ ip0 := {| count := 50; resetTime := 1000 |} ]}).1
     = {| allowed := true; remaining := 49 |}.
Proof.
  destruct quota_window_invariant as (Hinv & Hrej & Hreset).
  split; [|split].
  - apply (Hinv (POST hello_request (quiet_world 5) ∅).2) with (ip := ip0).
    + apply reachable_POST, reachable_start.
    + vm_compute. reflexivity.
  - apply (Hrej ip0 1000 _ {| count := 50; resetTime := 1000 |});
      [apply lookup_singleton_eq | done].
  - apply (Hreset ip0 1001 _ {| count := 50; resetTime := 1000 |});
      [apply lookup_singleton_eq | cbn; lia].
Defined.

(** C7.  [GET] (the specification's [peek]) never creates or increments a
    record: whatever record the store holds after it was there before,
    unchanged.  Any number of [GET] requests, by any callers, made before
    a [checkRateLimit] call (their clocks not after the call's) leave that
    call's answer, hence the remaining value it reports, and the store it
    leaves exactly as they are without the requests. *)
Theorem GET_never_consumes :
  (forall req w st ip v, (GET req w st).2 !! ip = Some v -> st !! ip = Some v)
  /\ (forall probes ip t st,
        Forall (fun p : request * world => now p.2 <= t) probes ->
        checkRateLimit ip t (probe_all probes st) = checkRateLimit ip t st).
Proof.
  split.
  - intros req w st ip v. rewrite GET_store. destruct (fault w); [done|].
    rewrite lookup_sweep. destruct (st !! ip) as [u|]; [|done].
    by destruct (expired (now w) u).
  - intros probes ip t. induction probes as [|[req w] probes IH]; intros st Hp;
      cbn [probe_all]; [done|].
    apply Forall_cons in Hp as [Hw Hp]. rewrite IH by done.
    rewrite GET_store. destruct (fault w); [done|].
    by apply checkRateLimit_sweep.
Qed.

(** [GET_never_consumes] on two probes between two calls. *)
Lemma GET_never_consumes_witness :
  checkRateLimit ip0 900
    (probe_all [(hello_request, quiet_world 100); (hello_request, quiet_world 700)]
       (checkRateLimit ip0 50 ∅).2)
  = checkRateLimit ip0 900 (checkRateLimit ip0 50 ∅).2.
Proof.
  apply (proj2 GET_never_consumes).
  repeat constructor; cbn; lia.
Defined.

(** C10.  After [k] consuming calls of one window ([1 <= k <= 50], the
    first at [now0]), [GET] inside the window reports [remaining = 50 - k]
    and the stored [resetTime = now0 + 24h].  For a caller with no record,
    or only an expired one, it reports [remaining = 50] and
    [resetTime = now + 24h] of its own clock and starts no window; so two
    probes of an unseen caller at different times report different reset
    times. *)
Theorem GET_reports_consumption :
  (forall req w st now0 ts,
      (st !! getClientIP req = None
       \/ exists v, st !! getClientIP req = Some v /\ resetTime v < now0) ->
      Forall (fun t => t <= now0 + 24 * 60 * 60 * 1000) ts ->
      (S (length ts) <= 50)%nat ->
      fault w = false -> now w <= now0 + 24 * 60 * 60 * 1000 ->
      (GET req w (consume_all (getClientIP req) (now0 :: ts) st).2).1
      = respond (StatusBody (50 - Z.of_nat (S (length ts)))
                   (now0 + 24 * 60 * 60 * 1000)))
  /\ (forall req w st,
        (st !! getClientIP req = None
         \/ exists v, st !! getClientIP req = Some v /\ resetTime v < now w) ->
        fault w = false ->
        (GET req w st).1 = respond (StatusBody 50 (now w + 24 * 60 * 60 * 1000))
        /\ (GET req w st).2 !! getClientIP req = None)
  /\ (forall req w1 w2 st,
        st !! getClientIP req = None ->
        fault w1 = false -> fault w2 = false -> now w1 <> now w2 ->
        (GET req w1 st).1 <> (GET req w2 (GET req w1 st).2).1).
Proof.
  assert (forall req w st,
            (st !! getClientIP req = None
             \/ exists v, st !! getClientIP req = Some v /\ resetTime v < now w) ->
            fault w = false ->
            (GET req w st).1 = respond (StatusBody 50 (now w + DAY))
            /\ (GET req w st).2 !! getClientIP req = None) as Hunseen.
  { intros req w st Hfresh Hf. rewrite GET_store, GET_response, Hf, lookup_sweep by done.
    destruct Hfresh as [->|(v & -> & Hv%expired_iff)]; [done|]. by rewrite Hv. }
  split; [|split; [exact Hunseen|]].
  - intros req w st now0 ts Hfresh Hts Hk Hf Hw.
    rewrite GET_response by done.
    rewrite (proj2 (consume_all_fresh _ now0 ts st Hfresh Hts)).
    destruct (expired _ _) eqn:Ev;
      [apply expired_iff in Ev; cbn [resetTime] in Ev; unfold DAY in Ev; lia|].
    cbn [resetTime count]. unfold respond, dailyLimit. do 2 f_equal. lia.
  - intros req w1 w2 st E Hf1 Hf2 Hne.
    destruct (Hunseen req w1 st (or_introl E) Hf1) as [-> E'].
    destruct (Hunseen req w2 _ (or_introl E') Hf2) as [-> _].
    unfold respond. intros [= H]. lia.
Qed.

(** [GET_reports_consumption] after three calls, and on an unseen caller. *)
Lemma GET_reports_consumption_witness :
  (GET hello_request (quiet_world 900)
     (consume_all (getClientIP hello_request) [10; 20; 30] ∅).2).1
  = respond (StatusBody (50 - Z.of_nat 3) (10 + 24 * 60 * 60 * 1000))
  /\ (GET hello_request (quiet_world 900) ∅).1
     = respond (StatusBody 50 (900 + 24 * 60 * 60 * 1000))
  /\ (GET hello_request (quiet_world 900) ∅).1
     <> (GET hello_request (quiet_world 901)
          (GET hello_request (quiet_world 900) ∅).2).1.
Proof.
  destruct GET_reports_consumption as (Hk & Hunseen & Hdiff).
  split; [|split].
  - apply (Hk hello_request (quiet_world 900) ∅ 10 [20; 30]).
    + left. apply lookup_empty.
    + repeat constructor; lia.
    + cbn. lia.
    + reflexivity.
    + cbn. lia.
  - apply (Hunseen hello_request (quiet_world 900) ∅).
    + left. apply lookup_empty.
    + reflexivity.
  - apply (Hdiff hello_request (quiet_world 900) (quiet_world 901) ∅).
    + apply lookup_empty.
    + reflexivity.
    + reflexivity.
    + cbn. lia.
Defined.

(** ** The gateway: degraded answers, faults and the upstream call *)

(** C4.  A [POST] whose message passes the two checks, from a caller whose
    quota is exhausted (a live record with [count >= 50]), is answered
    with status 200, [fallback = true], [remaining = 0] and the fixed
    daily-limit text, which is none of the pool's strings; the caller's
    record is left as it was. *)
Theorem POST_quota_exhausted (req : request) (w : world) (st : store)
    (m : list N) (v : quota) :
  fault w = false ->
  carries_message req m ->
  st !! getClientIP req = Some v -> now w <= resetTime v -> 50 <= count v ->
  (POST req w st).1
  = Some {| status := 200; payload := ChatBody LIMIT_MESSAGE true 0 |}
  /\ (LIMIT_MESSAGE ∉ FALLBACK_RESPONSES)
  /\ (POST req w st).2 !! getClientIP req = Some v.
Proof.
  intros Hf Hm%validate_accepted E Hv%live_not_expired Hc.
  rewrite POST_by_verdict, Hf, Hm. cbv zeta.
  rewrite (checkRateLimit_exhausted _ _ _ v E Hv Hc). cbn [fst snd allowed].
  split; [done|]. split; [apply LIMIT_MESSAGE_not_in_pool|].
  by rewrite lookup_sweep, E, Hv.
Qed.

Lemma carries_hello : carries_message hello_request (js "hello").
Proof.
  exists (JObject [(js "message", JString (js "hello"))]).
  split; [reflexivity|]. split; [reflexivity|]. vm_compute. discriminate.
Defined.

(** [POST_quota_exhausted] on [hello_request] and an exhausted record. *)
Lemma POST_quota_exhausted_witness :
  (POST hello_request (quiet_world 2000)
     {[ ip0 := {| count := 50; resetTime := 5000 |} ]}).1
  = Some {| status := 200; payload := ChatBody LIMIT_MESSAGE true 0 |}
  /\ (LIMIT_MESSAGE ∉ FALLBACK_RESPONSES)
  /\ (POST hello_request (quiet_world 2000)
        {[ ip0 := {| count := 50; resetTime := 5000 |} ]}).2
       !! getClientIP hello_request
     = Some {| count := 50; resetTime := 5000 |}.
Proof.
  apply (POST_quota_exhausted hello_request (quiet_world 2000) _ (js "hello")).
  - reflexivity.
  - exact carries_hello.
  - apply lookup_singleton_eq.
  - cbn. lia.
  - cbn. lia.
Defined.

(** C5.  A [POST] whose message passes the two checks and whose quota check
    allows the request, when no credential is configured ([undefined] or
    the empty string) or the upstream call is rejected or gives a missing
    or empty text: status 200, [fallback = true], a message of the fixed
    pool, and [remaining] as the quota check computed it; the store is the
    one the quota check left. *)
Theorem POST_degrades_gracefully (req : request) (w : world) (st : store)
    (m : list N) :
  fault w = false ->
  carries_message req m ->
  allowed (checkRateLimit (getClientIP req) (now w) st).1 = true ->
  GEMINI_API_KEY w = None \/ GEMINI_API_KEY w = Some []
  \/ generateContent w (prompt_of (sanitizeInput m)) = Rejected
  \/ generateContent w (prompt_of (sanitizeInput m)) = Fulfilled None
  \/ generateContent w (prompt_of (sanitizeInput m)) = Fulfilled (Some []) ->
  exists message,
    (POST req w st).1
    = Some {| status := 200;
              payload := ChatBody message true
                (remaining (checkRateLimit (getClientIP req) (now w) st).1) |}
    /\ message ∈ FALLBACK_RESPONSES
    /\ (POST req w st).2 = (checkRateLimit (getClientIP req) (now w) st).2.
Proof.
  intros Hf Hm%validate_accepted Hallowed Hfail.
  exists (fallbackResponse w).
  rewrite POST_by_verdict, Hf, Hm. cbv zeta. rewrite Hallowed.
  split; [|split; [apply fallbackResponse_in_pool|]].
  - destruct (GEMINI_API_KEY w) as [[|k ks]|] eqn:Hk; [done| |done].
    destruct Hfail as [?|[?|Hup]]; [done|done|].
    by rewrite (generate_failure w _ _ Hup).
  - destruct (GEMINI_API_KEY w) as [[|k ks]|] eqn:Hk; done.
Qed.

(** [POST_degrades_gracefully] on a rejected upstream call. *)
Lemma POST_degrades_gracefully_witness :
  exists message,
    (POST hello_request (keyed_world 7 Rejected) ∅).1
    = Some {| status := 200;
              payload := ChatBody message true
                (remaining (checkRateLimit (getClientIP hello_request)
                              (now (keyed_world 7 Rejected)) ∅).1) |}
    /\ message ∈ FALLBACK_RESPONSES
    /\ (POST hello_request (keyed_world 7 Rejected) ∅).2
       = (checkRateLimit (getClientIP hello_request)
            (now (keyed_world 7 Rejected)) ∅).2.
Proof.
  apply (POST_degrades_gracefully hello_request (keyed_world 7 Rejected) ∅
           (js "hello")).
  - reflexivity.
  - exact carries_hello.
  - vm_compute. reflexivity.
  - right. right. left. reflexivity.
Defined.

(** C8 as stated fails for [GET]: its 500 response is
    [{ remaining: 0, resetTime }], with no message to render. *)
Lemma GET_fault_carries_no_message :
  status (GET hello_request (faulty_world 100) ∅).1 = 500
  /\ payload (GET hello_request (faulty_world 100) ∅).1
     = StatusBody 0 (101 + 24 * 60 * 60 * 1000)
  /\ message_of (GET hello_request (faulty_world 100) ∅).1 = None.
Proof. vm_compute. done. Qed.

(** C8 (amended).  Every 500 response of [POST] carries a message of the
    fixed pool (not empty), with [fallback = true] and [remaining = 0];
    every 500 response of [GET] carries [remaining = 0] and
    [resetTime = now + 24h], and no message. *)
Theorem internal_fault_responses :
  (forall req w st r,
      (POST req w st).1 = Some r -> status r = 500 ->
      payload r = ChatBody (fallbackResponse w) true 0
      /\ message_of r = Some (fallbackResponse w)
      /\ fallbackResponse w ∈ FALLBACK_RESPONSES
      /\ fallbackResponse w <> [])
  /\ (forall req w st,
        status (GET req w st).1 = 500 ->
        payload (GET req w st).1 = StatusBody 0 (now_catch w + 24 * 60 * 60 * 1000)
        /\ message_of (GET req w st).1 = None).
Proof.
  split.
  - intros req w st r Hr Hs.
    assert (r = POST_catch w) as ->.
    { rewrite POST_by_verdict in Hr.
      destruct (fault w); [by injection Hr|].
      destruct (validate req) as [| | |m]; cbn [fst] in Hr;
        try (injection Hr as <-; done).
      cbv zeta in Hr. destruct (allowed _).
      - destruct (GEMINI_API_KEY w) as [[|k ks]|]; cbn [fst] in Hr;
          try (injection Hr as <-; done).
        apply generate_status in Hr. congruence.
      - injection Hr as <-. done. }
    pose proof (fallbackResponse_in_pool w) as Hin.
    split; [done|]. split; [done|]. split; [done|]. by apply pool_not_empty.
  - intros req w st. destruct (fault w) eqn:Hf.
    + by rewrite GET_fault.
    + rewrite GET_response by done.
      destruct (st !! getClientIP req) as [v|]; [|done].
      by destruct (expired (now w) v).
Qed.

(** [internal_fault_responses] on a platform fault. *)
Lemma internal_fault_responses_witness :
  (payload (POST_catch (faulty_world 100))
   = ChatBody (fallbackResponse (faulty_world 100)) true 0
   /\ message_of (POST_catch (faulty_world 100))
      = Some (fallbackResponse (faulty_world 100))
   /\ fallbackResponse (faulty_world 100) ∈ FALLBACK_RESPONSES
   /\ fallbackResponse (faulty_world 100) <> [])
  /\ (payload (GET hello_request (faulty_world 100) ∅).1
      = StatusBody 0 (now_catch (faulty_world 100) + 24 * 60 * 60 * 1000)
      /\ message_of (GET hello_request (faulty_world 100) ∅).1 = None).
Proof.
  destruct internal_fault_responses as [HPOST HGET]. split.
  - apply (HPOST hello_request (faulty_world 100) ∅); reflexivity.
  - apply (HGET hello_request (faulty_world 100) ∅). reflexivity.
Defined.

(** C9 as stated fails: the route sets no timeout, so while the upstream
    call stays pending the handler gives no response (the quota is already
    consumed). *)
Lemma POST_waits_on_pending_upstream :
  (POST hello_request (keyed_world 7 Pending) ∅).1 = None
  /\ (POST hello_request (keyed_world 7 Pending) ∅).2 !! ip0
     = Some {| count := 1; resetTime := 7 + 24 * 60 * 60 * 1000 |}.
Proof. vm_compute. done. Qed.

(** C9 (amended).  [POST] awaits the upstream call without a timeout: it
    gives no response exactly when it reaches the upstream call and that
    call never settles; an upstream call that is rejected or gives a
    missing or empty text is answered with the fallback (status 200,
    [fallback = true], [remaining] as computed by the quota check). *)
Theorem POST_responds_iff_upstream_settles (req : request) (w : world)
    (st : store) :
  ((POST req w st).1 = None <->
   exists m k ks,
     fault w = false /\ carries_message req m
     /\ allowed (checkRateLimit (getClientIP req) (now w) st).1 = true
     /\ GEMINI_API_KEY w = Some (k :: ks)
     /\ generateContent w (prompt_of (sanitizeInput m)) = Pending)
  /\ (forall m k ks,
        fault w = false -> carries_message req m ->
        allowed (checkRateLimit (getClientIP req) (now w) st).1 = true ->
        GEMINI_API_KEY w = Some (k :: ks) ->
        generateContent w (prompt_of (sanitizeInput m)) = Rejected
        \/ generateContent w (prompt_of (sanitizeInput m)) = Fulfilled None
        \/ generateContent w (prompt_of (sanitizeInput m)) = Fulfilled (Some []) ->
        (POST req w st).1
        = Some {| status := 200;
                  payload := ChatBody (fallbackResponse w) true
                    (remaining (checkRateLimit (getClientIP req) (now w) st).1) |}).
Proof.
  split; [split|].
  - rewrite POST_by_verdict. destruct (fault w) eqn:Hf; [done|].
    destruct (validate req) as [| | |m] eqn:Hv; try done. cbv zeta.
    destruct (allowed _) eqn:Ha; [|done].
    destruct (GEMINI_API_KEY w) as [[|k ks]|] eqn:Hk; try done.
    cbn [fst]. intros Hg%generate_none.
    exists m, k, ks. by rewrite <- validate_accepted.
  - intros (m & k & ks & Hf & Hm%validate_accepted & Ha & Hk & Hup).
    rewrite POST_by_verdict, Hf, Hm. cbv zeta. rewrite Ha, Hk. cbn [fst].
    by apply generate_none.
  - intros m k ks Hf Hm%validate_accepted Ha Hk Hup.
    rewrite POST_by_verdict, Hf, Hm. cbv zeta. rewrite Ha, Hk. cbn [fst].
    by rewrite (generate_failure w _ _ Hup).
Qed.

(** [POST_responds_iff_upstream_settles] on an upstream call without text. *)
Lemma POST_responds_iff_upstream_settles_witness :
  (POST hello_request (keyed_world 7 (Fulfilled None)) ∅).1
  = Some {| status := 200;
            payload := ChatBody (fallbackResponse (keyed_world 7 (Fulfilled None)))
              true
              (remaining (checkRateLimit (getClientIP hello_request)
                            (now (keyed_world 7 (Fulfilled None))) ∅).1) |}.
Proof.
  apply (proj2 (POST_responds_iff_upstream_settles hello_request
                  (keyed_world 7 (Fulfilled None)) ∅)
           (js "hello") 116%N (js "est-key")).
  - reflexivity.
  - exact carries_hello.
  - vm_compute. reflexivity.
  - reflexivity.
  - right. left. reflexivity.
Defined.

(** C2 fails on the code: a request without a body, or with one that is
    not a JSON text ([request.json()] rejects), and a body [null] are
    answered with status 500 and a chat-shaped body, not with 400 and
    [{ error }]; the body [{}] is answered with 400. *)
Lemma POST_unreadable_body_is_500 :
  (POST (request_with None) (quiet_world 0) ∅).1
  = Some {| status := 500;
            payload := ChatBody (fallbackResponse (quiet_world 0)) true 0 |}
  /\ (POST (request_with (Some JNull)) (quiet_world 0) ∅).1
     = Some {| status := 500;
               payload := ChatBody (fallbackResponse (quiet_world 0)) true 0 |}
  /\ (POST (request_with (Some (JObject []))) (quiet_world 0) ∅).1
     = Some {| status := 400;
               payload := ErrorBody (js "Message is required and must be a string") |}.
Proof. vm_compute. done. Qed.

(** Where the body is read, the status is 400 exactly for a message that is
    missing, not a string, or empty once sanitized. *)
Lemma POST_400_iff (req : request) (w : world) (st : store) (r : response) :
  fault w = false -> (POST req w st).1 = Some r ->
  (status r = 400 <-> validate req = MessageMissing \/ validate req = MessageEmpty)
  /\ (status r = 500 <-> validate req = BodyUnreadable)
  /\ (status r = 400 -> exists e, payload r = ErrorBody e).
Proof.
  intros Hf. rewrite POST_by_verdict, Hf.
  destruct (validate req) as [| | |m]; cbn [fst]; try intros [= <-].
  1-3: cbn; repeat split; try done; try (intros [?|?]; done); eauto.
  cbv zeta. intros Hr.
  assert (status r = 200) as Hs.
  { destruct (allowed _); [|by injection Hr as <-].
    destruct (GEMINI_API_KEY w) as [[|k ks]|]; cbn [fst] in Hr;
      try (by injection Hr as <-).
    by apply generate_status in Hr. }
  rewrite Hs. repeat split; try done. intros [?|?]; done.
Qed.

(* ===================================================================== *)
(** * Further properties of the route and of its client *)
(* ===================================================================== *)

(** ** The caller's identity *)

Lemma split_comma_first_spec (f : list N) :
  exists rest,
    f = split_comma_first f ++ rest
    /\ (44%N ∉ split_comma_first f)
    /\ (rest = [] \/ exists t, rest = 44%N :: t).
Proof.
  induction f as [|c f (rest & E & Hno & Hrest)]; cbn [split_comma_first].
  - exists []. split; [done|]. split; [apply not_elem_of_nil|by left].
  - destruct (N.eqb_spec c 44) as [->|Hc].
    + exists (44%N :: f). split; [done|]. split; [apply not_elem_of_nil|].
      right. by exists f.
    + exists rest. split; [cbn; congruence|]. split; [|done].
      rewrite not_elem_of_cons. split; [congruence|done].
Qed.

(** X1. [getClientIP] never returns the empty string.  When the
    [x-forwarded-for] header is present and its text before the first comma
    is not empty, the identity is exactly that text (untrimmed, and free of
    commas); when the header is absent or starts with a comma (or is
    empty), the identity is the [x-real-ip] header if that is not empty,
    and the word [unknown] otherwise.  The text before the first comma is
    the longest prefix of the header without a comma. *)
Theorem getClientIP_spec (req : request) :
  getClientIP req <> []
  /\ (forall f, x_forwarded_for req = Some f -> split_comma_first f <> [] ->
        getClientIP req = split_comma_first f /\ 44%N ∉ getClientIP req)
  /\ (x_forwarded_for req = None
      \/ (exists f, x_forwarded_for req = Some f /\ split_comma_first f = []) ->
      (forall r, x_real_ip req = Some r -> r <> [] -> getClientIP req = r)
      /\ (x_real_ip req = None \/ x_real_ip req = Some [] ->
          getClientIP req = js "unknown"))
  /\ (forall f, exists rest,
        f = split_comma_first f ++ rest
        /\ (44%N ∉ split_comma_first f)
        /\ (rest = [] \/ exists t, rest = 44%N :: t)).
Proof.
  unfold getClientIP. cbv zeta.
  split; [|split; [|split; [|apply split_comma_first_spec]]].
  - destruct (x_forwarded_for req) as [f|]; cbn [fmap option_fmap option_map or_string].
    + destruct (split_comma_first f) as [|c s]; [|done].
      destruct (x_real_ip req) as [[|c s]|]; done.
    + destruct (x_real_ip req) as [[|c s]|]; done.
  - intros f -> Hf. cbn [fmap option_fmap option_map or_string].
    destruct (split_comma_first_spec f) as (rest & _ & Hno & _).
    destruct (split_comma_first f) as [|c s] eqn:E; [done|]. done.
  - intros Hfw. split.
    + intros r -> Hr. destruct r as [|c r]; [done|].
      destruct Hfw as [->|(f & -> & E)];
        cbn [fmap option_fmap option_map or_string]; [done|]. by rewrite E.
    + intros Hr.
      destruct Hfw as [->|(f & -> & E)];
        cbn [fmap option_fmap option_map or_string]; [|rewrite E];
        by destruct Hr as [-> | ->].
Qed.

Lemma getClientIP_spec_witness :
  getClientIP {| x_forwarded_for := Some (js " 203.0.113.7 ,10.0.0.1");
                 x_real_ip := Some (js "10.0.0.2");
                 json_body := None |}
  = js " 203.0.113.7 "
  /\ 44%N ∉ getClientIP {| x_forwarded_for := Some (js " 203.0.113.7 ,10.0.0.1");
                           x_real_ip := Some (js "10.0.0.2");
                           json_body := None |}.
Proof.
  apply (proj1 (proj2 (getClientIP_spec _)) (js " 203.0.113.7 ,10.0.0.1")).
  - reflexivity.
  - vm_compute. discriminate.
Defined.







(** ** The sanitizer only deletes *)

Lemma trim_sublist (s : list N) : trim s `sublist_of` s.
Proof.
  destruct (trim_spec s) as [(l & r & E & _) _].
  rewrite E at 2. by apply sublist_inserts_l, sublist_inserts_r.
Qed.

Lemma remove_fragments_sublist (skip : nat) (s : list N) :
  remove_fragments skip s `sublist_of` s.
Proof.
  revert skip. induction s as [|c s IH]; intros skip; cbn [remove_fragments];
    [done|].
  destruct skip as [|n]; [|by apply sublist_cons].
  destruct (script_fragment (c :: s)) as [[|n]|];
    by (apply sublist_skip || apply sublist_cons).
Qed.

(** X3. The sanitizer only deletes: its result is the input with some
    code units removed, the others in their order; it never inserts,
    replaces or reorders a code unit, and never returns more than it
    got. *)
Theorem sanitizeInput_only_deletes (input : list N) :
  sanitizeInput input `sublist_of` input
  /\ (length (sanitizeInput input) <= length input)%nat.
Proof.
  assert (sanitizeInput input `sublist_of` input) as H.
  { rewrite sanitizeInput_steps. unfold sanitize_steps, strip_brackets.
    etrans; [apply sublist_take|]. etrans; [apply sublist_filter|].
    etrans; [apply remove_fragments_sublist|]. apply trim_sublist. }
  split; [done|]. by apply sublist_length.
Qed.

Lemma script_fragment_needs_lt (s : list N) :
  head s <> Some 60%N -> script_fragment s = None.
Proof.
  intros Hs. unfold script_fragment, ci_prefix.
  destruct s as [|c s]; [done|].
  change (js "<script") with (60%N :: js "script").
  rewrite ci_strip_lt_head; [done|]. intros ->. by apply Hs.
Qed.

Lemma remove_fragments_no_lt (s : list N) :
  60%N ∉ s -> remove_fragments 0 s = s.
Proof.
  induction s as [|c s IH]; [done|]. rewrite not_elem_of_cons. intros [Hc Hs].
  cbn [remove_fragments]. rewrite script_fragment_needs_lt; [by rewrite IH|].
  cbn. congruence.
Qed.

Lemma strip_brackets_clean (s : list N) :
  Forall (fun c => c <> 60%N /\ c <> 62%N) s -> strip_brackets s = s.
Proof.
  unfold strip_brackets. induction 1 as [|c s Hc _ IH]; [done|].
  rewrite filter_cons, decide_True by done. by rewrite IH.
Qed.

Lemma trimStart_stable (s : list N) :
  (forall c, head s = Some c -> is_ws c = false) -> trimStart s = s.
Proof.
  destruct s as [|c s]; [done|]. intros H. cbn [trimStart].
  by rewrite (H c eq_refl).
Qed.

Lemma trim_stable (s : list N) :
  (forall c, head s = Some c -> is_ws c = false) ->
  (forall c, last s = Some c -> is_ws c = false) ->
  trim s = s.
Proof.
  intros Hh Hl. unfold trim, trimEnd. rewrite (trimStart_stable s Hh).
  rewrite trimStart_stable; [apply reverse_involutive|].
  intros c. rewrite head_reverse. apply Hl.
Qed.

Lemma trim_idemp (s : list N) : trim (trim s) = trim s.
Proof.
  destruct (trim_spec s) as (_ & Hh & Hl). by apply trim_stable.
Qed.

Lemma Forall_sublist_of {A} (P : A -> Prop) (l k : list A) :
  l `sublist_of` k -> Forall P k -> Forall P l.
Proof.
  induction 1 as [|x l k _ IH|x l k _ IH]; [done| |].
  - intros [??]%Forall_cons. constructor; auto.
  - intros [??]%Forall_cons. auto.
Qed.

(** On a text without angle brackets the sanitizer trims and truncates. *)
Lemma sanitizeInput_clean_input (s : list N) :
  Forall (fun c => c <> 60%N /\ c <> 62%N) s ->
  sanitizeInput s = take 1000 (trim s).
Proof.
  intros Hs. rewrite sanitizeInput_steps. unfold sanitize_steps.
  assert (Forall (fun c => c <> 60%N /\ c <> 62%N) (trim s)) as Ht
    by (eapply Forall_sublist_of; [apply trim_sublist|done]).
  rewrite remove_fragments_no_lt, strip_brackets_clean; [done|done|].
  intros Hin. rewrite Forall_forall in Ht. by destruct (Ht _ Hin).
Qed.

(** On a text without angle brackets and of at most 1000 code units the
    sanitizer only trims. *)
Lemma sanitizeInput_of_clean (s : list N) :
  Forall (fun c => c <> 60%N /\ c <> 62%N) s -> (length s <= 1000)%nat ->
  sanitizeInput s = trim s.
Proof.
  intros Hs Hlen. rewrite sanitizeInput_clean_input by done.
  apply take_ge. pose proof (sublist_length _ _ (trim_sublist s)). lia.
Qed.

(** X4. A second pass of the sanitizer does nothing but trim: on any
    input, sanitizing the sanitized text trims it again.  The sanitizer is
    not idempotent (removing a bracket can uncover white space at an end of
    the text), but it is on a text of at most 1000 code units without
    angle brackets, where it does what [trim] does. *)
Theorem sanitizeInput_second_pass :
  (forall input, sanitizeInput (sanitizeInput input) = trim (sanitizeInput input))
  /\ (forall s,
        Forall (fun c => c <> 60%N /\ c <> 62%N) s -> (length s <= 1000)%nat ->
        sanitizeInput s = trim s
        /\ sanitizeInput (sanitizeInput s) = sanitizeInput s)
  /\ (exists input, sanitizeInput (sanitizeInput input) <> sanitizeInput input).
Proof.
  split; [|split].
  - intros input. destruct (sanitizeInput_clean input) as [Hlen Hs].
    by apply sanitizeInput_of_clean.
  - intros s Hs Hlen. split; [by apply sanitizeInput_of_clean|].
    rewrite (sanitizeInput_of_clean s Hs Hlen). rewrite sanitizeInput_of_clean.
    + apply trim_idemp.
    + eapply Forall_sublist_of; [apply trim_sublist|done].
    + pose proof (sublist_length _ _ (trim_sublist s)). lia.
  - exists (js "< a"). vm_compute. discriminate.
Qed.

Lemma sanitizeInput_second_pass_witness :
  sanitizeInput (js "  what is Botsistant?  ") = trim (js "  what is Botsistant?  ")
  /\ sanitizeInput (sanitizeInput (js "  what is Botsistant?  "))
     = sanitizeInput (js "  what is Botsistant?  ").
Proof.
  apply (proj1 (proj2 sanitizeInput_second_pass)).
  - vm_compute. repeat constructor; discriminate.
  - vm_compute. lia.
Defined.

(** ** The store after a call *)

Lemma checkRateLimit_step (ip : list N) (now : Z) (st : store) :
  checkRateLimit ip now st
  = ((step_record now (sweep now st !! ip)).1,
     <[ip := (step_record now (sweep now st !! ip)).2]> (sweep now st)).
Proof.
  unfold checkRateLimit, step_record, fresh_record. cbv zeta.
  destruct (sweep now st !! ip) as [v|] eqn:E; [|done].
  destruct (expired now v); [done|].
  destruct (dailyLimit <=? count v); [|done].
  cbn [fst snd]. by rewrite insert_id.
Qed.

Lemma DAY_pos : 0 < DAY.
Proof. reflexivity. Qed.

Lemma step_record_live (now : Z) (o : option quota) :
  (forall v, o = Some v -> expired now v = false) ->
  expired now (step_record now o).2 = false.
Proof.
  intros Ho. unfold step_record, fresh_record, expired.
  destruct o as [v|].
  - specialize (Ho v eq_refl). unfold expired in *.
    destruct (resetTime v <? now) eqn:E; [done|].
    by destruct (dailyLimit <=? count v).
  - cbn. pose proof DAY_pos. apply Z.ltb_ge. lia.
Qed.

Lemma sweep_lookup_live (now : Z) (st : store) (j : list N) (v : quota) :
  sweep now st !! j = Some v -> expired now v = false.
Proof.
  rewrite lookup_sweep. destruct (st !! j) as [u|]; [|done].
  destruct (expired now u) eqn:E; [done|]. by intros [= <-].
Qed.

(** X5. After a call of [checkRateLimit] the store holds no expired
    record: every record ends at or after the time of the call.  The
    record of any other caller is the one it had, or is gone if it had
    expired; the caller itself has a record; and the store has grown by at
    most one record. *)
Theorem checkRateLimit_keeps_live_only (ip : list N) (now : Z) (st : store) :
  (forall j u, (checkRateLimit ip now st).2 !! j = Some u -> now <= resetTime u)
  /\ (forall j, j <> ip ->
        (checkRateLimit ip now st).2 !! j
        = match st !! j with
          | Some u => if resetTime u <? now then None else Some u
          | None => None
          end)
  /\ is_Some ((checkRateLimit ip now st).2 !! ip)
  /\ (size (checkRateLimit ip now st).2 <= S (size st))%nat.
Proof.
  rewrite checkRateLimit_step. cbn [snd].
  split; [|split; [|split]].
  - intros j u. destruct (decide (ip = j)) as [<-|Hne].
    + rewrite lookup_insert_eq. intros [= <-]. apply live_not_expired.
      apply step_record_live. intros v. apply sweep_lookup_live.
    + rewrite lookup_insert_ne by done.
      intros H%sweep_lookup_live. by apply live_not_expired.
  - intros j Hne. rewrite lookup_insert_ne by done. apply lookup_sweep.
  - rewrite lookup_insert_eq. eauto.
  - etrans; [|apply le_n_S, (map_subseteq_size (sweep now st) st),
                map_filter_subseteq].
    rewrite map_size_insert. destruct (sweep now st !! ip); unfold id; lia.
Qed.

Lemma checkRateLimit_keeps_live_only_witness :
  let st : store := {[ ip0 := {| count := 3; resetTime := 100 |} ]} in
  (checkRateLimit (js "198.51.100.2") 200 st).2 !! ip0 = None
  /\ (size (checkRateLimit (js "198.51.100.2") 200 st).2 <= 2)%nat.
Proof.
  cbv zeta.
  destruct (checkRateLimit_keeps_live_only (js "198.51.100.2") 200
              {[ ip0 := {| count := 3; resetTime := 100 |} ]})
    as (_ & Hothers & _ & Hsize).
  split; [|exact Hsize].
  rewrite Hothers; [reflexivity|discriminate].
Defined.

(** ** Callers do not disturb one another *)

Section Isolation.
Variable ip : list N.

Lemma view_later (t0 t : Z) (st1 st2 : store) :
  t0 <= t -> view ip t0 st1 = view ip t0 st2 -> view ip t st1 = view ip t st2.
Proof.
  unfold view. intros Ht H.
  rewrite <- (sweep_sweep t t0 st1), <- (sweep_sweep t t0 st2) by done.
  by rewrite !(lookup_sweep t), H.
Qed.

Lemma view_sweep (t : Z) (st : store) : view ip t (sweep t st) = view ip t st.
Proof. unfold view. by rewrite sweep_idemp. Qed.

Lemma view_other (j : list N) (t : Z) (st : store) :
  j <> ip -> view ip t (checkRateLimit j t st).2 = view ip t st.
Proof.
  intros Hne. unfold view. rewrite checkRateLimit_step. cbn [snd].
  rewrite lookup_sweep, lookup_insert_ne by done.
  destruct (sweep t st !! ip) as [v|] eqn:E; [|done].
  by rewrite (sweep_lookup_live _ _ _ _ E).
Qed.

Lemma view_own (t : Z) (st1 st2 : store) :
  view ip t st1 = view ip t st2 ->
  (checkRateLimit ip t st1).1 = (checkRateLimit ip t st2).1
  /\ view ip t (checkRateLimit ip t st1).2 = view ip t (checkRateLimit ip t st2).2.
Proof.
  unfold view. intros H. rewrite !checkRateLimit_step. cbn [fst snd].
  rewrite H. split; [done|].
  rewrite !lookup_sweep, !lookup_insert_eq. done.
Qed.

Lemma times_of_own (t : Z) (evs : list event) :
  times_of ip (Consume ip t :: evs) = t :: times_of ip evs.
Proof. unfold times_of. cbn [omap list_omap]. by rewrite decide_True. Qed.

Lemma times_of_other (j : list N) (t : Z) (evs : list event) :
  j <> ip -> times_of ip (Consume j t :: evs) = times_of ip evs.
Proof.
  intros Hne. unfold times_of. cbn [omap list_omap]. by rewrite decide_False.
Qed.

Lemma serve_isolated (evs : list event) :
  forall (t0 : Z) (st1 st2 : store),
    StronglySorted Z.le (time_of <$> evs) ->
    Forall (fun e => t0 <= time_of e) evs ->
    view ip t0 st1 = view ip t0 st2 ->
    answers_to ip (serve evs st1).1 = (consume_all ip (times_of ip evs) st2).1.
Proof.
  induction evs as [|e evs IH]; intros t0 st1 st2 Hs Ht Hv; [done|].
  apply Forall_cons in Ht as [Ht0 Ht].
  cbn [fmap list_fmap] in Hs. apply StronglySorted_inv in Hs as [Hs Hle].
  assert (Forall (fun e' => time_of e <= time_of e') evs) as Hnext.
  { exact (proj1 (Forall_fmap _ _ _) Hle). }
  pose proof (view_later t0 (time_of e) st1 st2 Ht0 Hv) as Hv'.
  destruct e as [j t|t]; cbn [serve time_of] in *.
  - destruct (decide (j = ip)) as [->|Hne].
    + rewrite times_of_own. cbn [consume_all].
      destruct (view_own t st1 st2 Hv') as [Hr Hv2].
      specialize (IH t _ _ Hs Hnext Hv2).
      destruct (checkRateLimit ip t st1) as [r1 st1'].
      destruct (checkRateLimit ip t st2) as [r2 st2'].
      cbn [fst snd] in *. subst r2.
      destruct (serve evs st1') as [log st1''].
      destruct (consume_all ip _ st2') as [rs st2''].
      cbn [fst snd] in *. unfold answers_to in *.
      rewrite filter_cons, decide_True by done. cbn. by rewrite IH.
    + rewrite times_of_other by done.
      pose proof (view_other j t st1 Hne) as Hv2.
      specialize (IH t (checkRateLimit j t st1).2 st2 Hs Hnext
                    ltac:(congruence)).
      destruct (checkRateLimit j t st1) as [r1 st1']. cbn [snd] in IH.
      revert IH. destruct (serve evs st1') as [log st1'']. intros IH.
      cbn [fst snd] in *.
      unfold answers_to in *. rewrite filter_cons, decide_False by done.
      done.
  - apply (IH t); [done|done|]. by rewrite view_sweep.
Qed.
End Isolation.

(** X6. Callers do not disturb one another.  In any run of calls of
    [checkRateLimit] by any callers and of sweeps by [GET], in the order of
    their times, the answers one caller gets are those it would get had it
    been alone: they depend on its own calls and their times only. *)
Theorem answers_do_not_depend_on_others (ip : list N) (evs : list event)
    (st : store) :
  Sorted Z.le (time_of <$> evs) ->
  answers_to ip (serve evs st).1 = (consume_all ip (times_of ip evs) st).1.
Proof.
  intros Hs%Sorted_StronglySorted; [|intros x y z; apply Z.le_trans].
  destruct evs as [|e evs]; [done|].
  apply (serve_isolated ip (e :: evs) (time_of e)); [done| |done].
  cbn [fmap list_fmap] in Hs. apply StronglySorted_inv in Hs as [_ Hle].
  constructor; [lia|]. exact (proj1 (Forall_fmap _ _ _) Hle).
Qed.

Lemma answers_do_not_depend_on_others_witness :
  answers_to ip0
    (serve [Consume ip0 10; Consume (js "198.51.100.2") 20; Probe 30;
            Consume ip0 40; Consume (js "198.51.100.2") 50] ∅).1
  = (consume_all ip0
       (times_of ip0
          [Consume ip0 10; Consume (js "198.51.100.2") 20; Probe 30;
           Consume ip0 40; Consume (js "198.51.100.2") 50]) ∅).1.
Proof.
  apply answers_do_not_depend_on_others.
  cbn. repeat (constructor; try lia).
Defined.

(** ** How many requests a caller gets in 24 hours *)

Lemma allowed_count_cons (r : rate_result) (rs : list rate_result) :
  allowed_count (r :: rs)
  = ((if allowed r then 1 else 0) + allowed_count rs)%nat.
Proof.
  unfold allowed_count. rewrite filter_cons.
  destruct (allowed r); [by rewrite decide_True|by rewrite decide_False].
Qed.

Lemma consume_all_cons (ip : list N) (t : Z) (ts : list Z) (st : store) :
  (consume_all ip (t :: ts) st).1
  = (checkRateLimit ip t st).1
      :: (consume_all ip ts (checkRateLimit ip t st).2).1.
Proof.
  cbn [consume_all]. destruct (checkRateLimit ip t st) as [r st'].
  cbn [fst snd]. by destruct (consume_all ip ts st').
Qed.

(** Inside one window at most [50 - count] more requests are allowed. *)
Lemma allowed_in_window (ip : list N) (ts : list Z) :
  forall (st : store) (v : quota),
    st !! ip = Some v -> count v <= dailyLimit ->
    Forall (fun t => t <= resetTime v) ts ->
    Z.of_nat (allowed_count (consume_all ip ts st).1) <= dailyLimit - count v.
Proof.
  induction ts as [|t ts IH]; intros st v E Hc Hts; [cbn; lia|].
  apply Forall_cons in Hts as [Ht%live_not_expired Hts].
  rewrite consume_all_cons, allowed_count_cons.
  destruct (Z.lt_ge_cases (count v) dailyLimit) as [Hlt|Hge].
  - rewrite (checkRateLimit_live ip t st v E Ht Hlt). cbn [fst snd allowed].
    set (v' := {| count := count v + 1; resetTime := resetTime v |}).
    specialize (IH (<[ip := v']> (sweep t st)) v' (lookup_insert_eq _ _ _)).
    cbn [count resetTime v'] in IH. specialize (IH ltac:(lia) Hts). lia.
  - rewrite (checkRateLimit_exhausted ip t st v E Ht Hge). cbn [fst snd allowed].
    assert (sweep t st !! ip = Some v) as E' by (by rewrite lookup_sweep, E, Ht).
    specialize (IH (sweep t st) v E' Hc Hts). lia.
Qed.

(** From a call that opens a window at [t], at most 50 are allowed while
    the window lasts. *)
Lemma allowed_from_fresh (ip : list N) (t : Z) (ts : list Z) (st : store) :
  (st !! ip = None \/ exists v, st !! ip = Some v /\ resetTime v < t) ->
  Forall (fun t' => t' <= t + DAY) ts ->
  Z.of_nat (allowed_count (consume_all ip (t :: ts) st).1) <= dailyLimit.
Proof.
  intros Hfresh Hts. rewrite consume_all_cons, allowed_count_cons.
  assert (checkRateLimit ip t st =
          ({| allowed := true; remaining := 49 |},
           <[ip := fresh_record t]> (sweep t st))) as ->.
  { destruct Hfresh as [E|(v & E & Hv%expired_iff)].
    - by apply checkRateLimit_first.
    - by apply (checkRateLimit_expired ip t st v). }
  cbn [fst snd allowed].
  pose proof (allowed_in_window ip ts (<[ip := fresh_record t]> (sweep t st))
                (fresh_record t) (lookup_insert_eq _ _ _)) as H.
  cbn [fresh_record count resetTime] in H. unfold dailyLimit in *.
  specialize (H ltac:(lia) Hts). lia.
Qed.

Lemma allowed_across_windows (ip : list N) (lo : Z) (ts : list Z) :
  forall (st : store) (v : quota),
    st !! ip = Some v -> count v <= dailyLimit ->
    Forall (fun t => lo <= t <= lo + DAY) ts ->
    Z.of_nat (allowed_count (consume_all ip ts st).1)
    <= (dailyLimit - count v) + dailyLimit.
Proof.
  induction ts as [|t ts IH]; intros st v E Hc Hts; [cbn; unfold dailyLimit in *; lia|].
  pose proof Hts as Hall. apply Forall_cons in Hts as [Ht Hts].
  destruct (Z.lt_ge_cases (resetTime v) t) as [Hexp|Hlive].
  - (* the window has expired: this call opens the next one *)
    pose proof (allowed_from_fresh ip t ts st
                  (or_intror (ex_intro _ v (conj E Hexp)))) as H.
    unfold dailyLimit in *. apply Z.le_trans with 50; [|lia]. apply H.
    eapply Forall_impl; [exact Hts|]. cbn. intros t' Ht'. lia.
  - apply live_not_expired in Hlive.
    rewrite consume_all_cons, allowed_count_cons.
    destruct (Z.lt_ge_cases (count v) dailyLimit) as [Hlt|Hge].
    + rewrite (checkRateLimit_live ip t st v E Hlive Hlt). cbn [fst snd allowed].
      set (v' := {| count := count v + 1; resetTime := resetTime v |}).
      specialize (IH (<[ip := v']> (sweep t st)) v' (lookup_insert_eq _ _ _)).
      cbn [count resetTime v'] in IH. specialize (IH ltac:(lia) Hts). lia.
    + rewrite (checkRateLimit_exhausted ip t st v E Hlive Hge).
      cbn [fst snd allowed].
      assert (sweep t st !! ip = Some v) as E'
          by (by rewrite lookup_sweep, E, Hlive).
      specialize (IH (sweep t st) v E' Hc Hts). lia.
Qed.

(** X7. Within any 24 hours a caller is allowed at most 99 requests, and
    99 is reached: 50 is the limit of one window, not of every period of
    24 hours (a window that ends inside the period is followed by a new
    one). *)
Theorem at_most_99_in_24_hours (ip : list N) (lo : Z) (ts : list Z)
    (st : store) :
  counts_bounded st ->
  Forall (fun t => lo <= t <= lo + 24 * 60 * 60 * 1000) ts ->
  (allowed_count (consume_all ip ts st).1 <= 99)%nat.
Proof.
  intros Hst Hts.
  destruct (st !! ip) as [v|] eqn:E.
  - pose proof (allowed_across_windows ip lo ts st v E) as H.
    pose proof (Hst ip v E) as Hv. unfold dailyLimit in *.
    specialize (H ltac:(lia) Hts). lia.
  - destruct ts as [|t ts]; [cbn; lia|].
    apply Forall_cons in Hts as [Ht Hts].
    pose proof (allowed_from_fresh ip t ts st (or_introl E)) as H.
    unfold dailyLimit in *. 
    assert (Z.of_nat (allowed_count (consume_all ip (t :: ts) st).1) <= 50); [|lia].
    apply H. eapply Forall_impl; [exact Hts|]. cbn. intros t' Ht'.
    unfold DAY. lia.
Qed.

Lemma at_most_99_in_24_hours_witness :
  let st : store := {[ ip0 := {| count := 1; resetTime := 1000 |} ]} in
  let ts := replicate 49 1000 ++ replicate 50 1001 in
  (allowed_count (consume_all ip0 ts st).1 <= 99)%nat
  /\ allowed_count (consume_all ip0 ts st).1 = 99%nat.
Proof.
  cbv zeta. split; [|vm_compute; reflexivity].
  apply (at_most_99_in_24_hours ip0 1000).
  - intros j v. destruct (decide (j = ip0)) as [->|Hne].
    + rewrite lookup_singleton_eq. intros [= <-]. cbn. unfold dailyLimit. lia.
    + by rewrite lookup_singleton_ne.
  - apply Forall_app. split; apply Forall_replicate; lia.
Defined.

(** ** The handlers together *)

(** X8. [GET] foretells the next [POST] of the same caller at the same
    time: without an internal fault it answers 200 with a remaining count
    that is never negative and a reset time that is not in the past, and
    [checkRateLimit] then allows the caller exactly when that count is
    positive, leaving one less. *)
Theorem GET_foretells_the_next_call (req : request) (w : world) (st : store) :
  fault w = false ->
  exists rem reset,
    (GET req w st).1 = {| status := 200; payload := StatusBody rem reset |}
    /\ 0 <= rem
    /\ now w <= reset
    /\ (checkRateLimit (getClientIP req) (now w) (GET req w st).2).1
       = (if 0 <? rem
          then {| allowed := true; remaining := rem - 1 |}
          else {| allowed := false; remaining := 0 |})
    /\ (counts_bounded st -> rem <= 50).
Proof.
  intros Hf. rewrite GET_response, GET_store, Hf by done.
  rewrite checkRateLimit_sweep by lia.
  destruct (st !! getClientIP req) as [v|] eqn:E.
  - destruct (expired (now w) v) eqn:Ev.
    + exists dailyLimit, (now w + DAY). split; [done|].
      rewrite (checkRateLimit_expired _ _ _ v E Ev).
      unfold dailyLimit, DAY. cbn. repeat split; lia.
    + exists (Z.max 0 (dailyLimit - count v)), (resetTime v). split; [done|].
      split; [lia|]. split; [by apply live_not_expired|]. split.
      * destruct (Z.lt_ge_cases (count v) dailyLimit) as [Hc|Hc].
        -- rewrite (checkRateLimit_live _ _ _ v E Ev Hc). cbn [fst].
           destruct (Z.ltb_spec 0 (Z.max 0 (dailyLimit - count v))); [|lia].
           f_equal. lia.
        -- rewrite (checkRateLimit_exhausted _ _ _ v E Ev Hc). cbn [fst].
           destruct (Z.ltb_spec 0 (Z.max 0 (dailyLimit - count v))); [lia|done].
      * intros Hst. specialize (Hst _ _ E). unfold dailyLimit in *. lia.
  - exists dailyLimit, (now w + DAY). split; [done|].
    rewrite (checkRateLimit_first _ _ _ E).
    unfold dailyLimit, DAY. cbn. repeat split; lia.
Qed.

Lemma GET_foretells_the_next_call_witness :
  exists rem reset,
    (GET hello_request (quiet_world 2000)
       {[ ip0 := {| count := 50; resetTime := 5000 |} ]}).1
    = {| status := 200; payload := StatusBody rem reset |}
    /\ 0 <= rem
    /\ now (quiet_world 2000) <= reset
    /\ (checkRateLimit (getClientIP hello_request) (now (quiet_world 2000))
          (GET hello_request (quiet_world 2000)
             {[ ip0 := {| count := 50; resetTime := 5000 |} ]}).2).1
       = (if 0 <? rem
          then {| allowed := true; remaining := rem - 1 |}
          else {| allowed := false; remaining := 0 |})
    /\ (counts_bounded {[ ip0 := {| count := 50; resetTime := 5000 |} ]} ->
        rem <= 50).
Proof.
  apply (GET_foretells_the_next_call hello_request (quiet_world 2000)).
  reflexivity.
Defined.

(** X9. Every answer of [POST] has one of three shapes: status 200 with a
    message that is not empty (with [fallback] set, it is the limit
    message or one of the five fallback texts; without, it is the text the
    model returned for the prompt of an accepted message); status 400 with
    an error text, the store untouched; status 500 with a fallback text,
    [fallback] set and remaining 0, the store untouched. *)
Theorem POST_response_shapes (req : request) (w : world) (st : store)
    (r : response) :
  (POST req w st).1 = Some r ->
  (status r = 200
   /\ exists message fallback rem,
       payload r = ChatBody message fallback rem
       /\ message <> []
       /\ (fallback = true ->
           message = LIMIT_MESSAGE \/ message ∈ FALLBACK_RESPONSES)
       /\ (fallback = false ->
           exists m, carries_message req m
             /\ generateContent w (prompt_of (sanitizeInput m))
                = Fulfilled (Some message)))
  \/ (status r = 400 /\ exists e, payload r = ErrorBody e /\ e <> []
      /\ (POST req w st).2 = st)
  \/ (status r = 500 /\ payload r = ChatBody (fallbackResponse w) true 0
      /\ (POST req w st).2 = st).
Proof.
  rewrite POST_by_verdict.
  pose proof (fallbackResponse_in_pool w) as Hpool.
  pose proof (pool_not_empty _ Hpool) as Hne.
  destruct (fault w); [intros [= <-]; right; right; done|].
  destruct (validate req) as [| | |m] eqn:Hv; cbn [fst snd].
  - intros [= <-]. right; right; done.
  - intros [= <-]. right; left. split; [done|]. eexists. done.
  - intros [= <-]. right; left. split; [done|]. eexists. done.
  - apply validate_accepted in Hv. cbv zeta.
    assert (LIMIT_MESSAGE <> []) as Hlimit by (vm_compute; discriminate).
    destruct (allowed _).
    + destruct (GEMINI_API_KEY w) as [[|k ks]|]; cbn [fst].
      * intros [= <-]. left. split; [done|]. do 3 eexists.
        split; [reflexivity|]. split; [done|]. split; [by right|done].
      * unfold generate.
        destruct (generateContent w _) as [[[|c t]|]| |] eqn:Hup;
          intros [= <-]; left; (split; [done|]); do 3 eexists;
          (split; [reflexivity|]); (split; [done|]);
          (split; [try done; by right|try done]).
        intros _. eauto.
      * intros [= <-]. left. split; [done|]. do 3 eexists.
        split; [reflexivity|]. split; [done|]. split; [by right|done].
    + intros [= <-]. left. split; [done|]. do 3 eexists.
      split; [reflexivity|]. split; [done|]. split; [by left|done].
Qed.

Lemma POST_response_shapes_witness :
  (status (respond (ChatBody (js "Hi there") false 49)) = 200
   /\ exists message fallback rem,
       payload (respond (ChatBody (js "Hi there") false 49))
       = ChatBody message fallback rem
       /\ message <> []
       /\ (fallback = true ->
           message = LIMIT_MESSAGE \/ message ∈ FALLBACK_RESPONSES)
       /\ (fallback = false ->
           exists m, carries_message hello_request m
             /\ generateContent
                  (keyed_world 7 (Fulfilled (Some (js "Hi there"))))
                  (prompt_of (sanitizeInput m))
                = Fulfilled (Some message)))
  \/ (status (respond (ChatBody (js "Hi there") false 49)) = 400
      /\ exists e, payload (respond (ChatBody (js "Hi there") false 49))
                   = ErrorBody e /\ e <> []
      /\ (POST hello_request
            (keyed_world 7 (Fulfilled (Some (js "Hi there")))) ∅).2 = ∅)
  \/ (status (respond (ChatBody (js "Hi there") false 49)) = 500
      /\ payload (respond (ChatBody (js "Hi there") false 49))
         = ChatBody
             (fallbackResponse (keyed_world 7 (Fulfilled (Some (js "Hi there")))))
             true 0
      /\ (POST hello_request
            (keyed_world 7 (Fulfilled (Some (js "Hi there")))) ∅).2 = ∅).
Proof.
  apply (POST_response_shapes hello_request
           (keyed_world 7 (Fulfilled (Some (js "Hi there")))) ∅).
  vm_compute. reflexivity.
Defined.

(** X10. [POST] charges the quota before it calls the model: for an
    accepted message the store after the handler is the store after
    [checkRateLimit], whatever the key and the model do (a failed or
    unanswered call is charged too); a rejected message or an internal
    fault leaves the store as it was. *)
Theorem POST_charges_before_the_upstream_call (req : request) (st : store) :
  (forall w m, fault w = false -> carries_message req m ->
     (POST req w st).2 = (checkRateLimit (getClientIP req) (now w) st).2)
  /\ (forall w, fault w = true \/ ~ (exists m, carries_message req m) ->
        (POST req w st).2 = st)
  /\ (forall w1 w2, now w1 = now w2 -> fault w1 = fault w2 ->
        (POST req w1 st).2 = (POST req w2 st).2).
Proof.
  assert (forall w m, fault w = false -> carries_message req m ->
            (POST req w st).2 = (checkRateLimit (getClientIP req) (now w) st).2)
    as Hacc.
  { intros w m Hf Hm%validate_accepted.
    rewrite POST_by_verdict, Hf, Hm. cbv zeta.
    destruct (allowed _); [|done].
    by destruct (GEMINI_API_KEY w) as [[|k ks]|]. }
  assert (forall w, fault w = true \/ ~ (exists m, carries_message req m) ->
            (POST req w st).2 = st) as Hrej.
  { intros w H. rewrite POST_by_verdict.
    destruct (fault w); [done|]. destruct H as [?|H]; [done|].
    destruct (validate req) as [| | |m] eqn:Hv; try done.
    destruct H. exists m. by apply validate_accepted. }
  split; [exact Hacc|]. split; [exact Hrej|].
  intros w1 w2 Hnow Hfault.
  destruct (fault w1) eqn:Hf1.
  - rewrite !Hrej; auto.
  - destruct (validate req) as [| | |m] eqn:Hv.
    4:{ apply validate_accepted in Hv.
        rewrite (Hacc w1 m), (Hacc w2 m) by done. by rewrite Hnow. }
    all: rewrite !Hrej; [done| |]; right; intros [m Hm%validate_accepted];
      congruence.
Qed.

Lemma POST_charges_before_the_upstream_call_witness :
  (POST hello_request (keyed_world 7 Pending) ∅).2
  = (checkRateLimit (getClientIP hello_request) (now (keyed_world 7 Pending)) ∅).2
  /\ (POST hello_request (faulty_world 7) ∅).2 = ∅
  /\ (POST hello_request (keyed_world 7 Pending) ∅).2
     = (POST hello_request (quiet_world 7) ∅).2.
Proof.
  destruct (POST_charges_before_the_upstream_call hello_request ∅)
    as (Hacc & Hrej & Hsame).
  split; [|split].
  - apply (Hacc _ (js "hello")); [reflexivity|exact carries_hello].
  - apply Hrej. left. reflexivity.
  - apply Hsame; reflexivity.
Defined.

(** X14. What reaches the model.  [POST] consults the model for one prompt
    only, the fixed preamble followed by the sanitized message (which is
    not empty, has at most 1000 code units and no angle bracket): its
    answer and the store do not depend on what the model would answer to
    any other prompt.  After an internal fault, for a rejected message,
    for a caller over its limit or without a key, they do not depend on
    the model at all. *)
Theorem POST_asks_the_model_one_prompt (req : request) (w : world)
    (st : store) :
  (forall g,
     (forall m, carries_message req m ->
        g (prompt_of (sanitizeInput m))
        = generateContent w (prompt_of (sanitizeInput m))) ->
     POST req (with_model w g) st = POST req w st)
  /\ (forall g,
        fault w = true
        \/ ~ (exists m, carries_message req m)
        \/ allowed (checkRateLimit (getClientIP req) (now w) st).1 = false
        \/ GEMINI_API_KEY w = None \/ GEMINI_API_KEY w = Some [] ->
        POST req (with_model w g) st = POST req w st)
  /\ (forall m, carries_message req m ->
        exists text,
          prompt_of (sanitizeInput m)
          = prompt_of [] ++ text
          /\ text <> [] /\ (length text <= 1000)%nat
          /\ Forall (fun c => c <> 60%N /\ c <> 62%N) text).
Proof.
  split; [|split].
  - intros g Hg. rewrite !POST_by_verdict.
    cbn [with_model fault now GEMINI_API_KEY].
    destruct (fault w); [done|].
    destruct (validate req) as [| | |m] eqn:Hv; try done.
    apply validate_accepted in Hv. cbv zeta.
    destruct (allowed _); [|done].
    destruct (GEMINI_API_KEY w) as [[|k ks]|]; try done.
    unfold generate. cbn [with_model generateContent]. by rewrite (Hg m Hv).
  - intros g H. rewrite !POST_by_verdict.
    cbn [with_model fault now GEMINI_API_KEY].
    destruct (fault w); [done|].
    destruct (validate req) as [| | |m] eqn:Hv; try done.
    apply validate_accepted in Hv. cbv zeta.
    destruct H as [H|[H|[H|[H|H]]]]; [done|destruct H; eauto| | |].
    + by rewrite H.
    + rewrite H. by destruct (allowed _).
    + rewrite H. by destruct (allowed _).
  - intros m (parsed & _ & _ & Hne).
    exists (sanitizeInput m). split; [|split; [done|]].
    + unfold prompt_of. by rewrite app_nil_r, <- !app_assoc.
    + destruct (sanitizeInput_clean m) as [Hlen Hs]. done.
Qed.

Lemma POST_asks_the_model_one_prompt_witness :
  POST hello_request
    (with_model (keyed_world 7 (Fulfilled (Some (js "Hi there"))))
       (fun p => if bool_decide (p = prompt_of (js "hello"))
                 then Fulfilled (Some (js "Hi there")) else Pending)) ∅
  = POST hello_request (keyed_world 7 (Fulfilled (Some (js "Hi there")))) ∅.
Proof.
  apply (proj1 (POST_asks_the_model_one_prompt hello_request
                  (keyed_world 7 (Fulfilled (Some (js "Hi there")))) ∅)).
  intros m Hm.
  assert (m = js "hello") as ->.
  { destruct Hm as (parsed & [= <-] & [= <-] & _). reflexivity. }
  vm_compute. reflexivity.
Defined.

(** ** The client and the route *)

Lemma send_begin_posts (now date : Z) (s s' : ui) (message : list N) :
  send_begin now date s = (s', Some message) ->
  message = sanitizeInput (inputText s) /\ message <> []
  /\ isTyping s = false
  /\ s' = {| messages := messages s
                          ++ [{| msg_id := now; msg_text := message;
                                 msg_sender := user; msg_timestamp := date;
                                 msg_fallback := None |}];
             inputText := []; isTyping := true;
             remainingMessages := remainingMessages s; error := None |}.
Proof.
  unfold send_begin. destruct (trim (inputText s)); [done|].
  destruct (isTyping s); [done|]. cbv zeta.
  destruct (sanitizeInput (inputText s)) as [|c m] eqn:E; [done|].
  intros [= <- <-]. done.
Qed.

Lemma validate_chat_request (forwarded realIP : option (list N))
    (message : list N) :
  message <> [] ->
  validate (chat_request forwarded realIP message)
  = match sanitizeInput message with
    | [] => MessageEmpty
    | _ :: _ => Accepted message
    end.
Proof.
  intros Hm. unfold validate, chat_request. cbn [json_body destructure_message get_field].
  rewrite decide_True by done. destruct message as [|c m]; [done|]. done.
Qed.

(** X11. What the client posts is already sanitized, and the server
    sanitizes it again: the message of [handleSendMessage] is not empty,
    has at most 1000 code units and no angle bracket, and for it the
    server's sanitizer is [trim].  So the server accepts the message
    unless it is white space only (the client removes brackets after it
    trims), and then answers 400. *)
Theorem client_message_at_the_server (now date : Z) (s s' : ui)
    (message : list N) (forwarded realIP : option (list N)) (w : world)
    (st : store) :
  send_begin now date s = (s', Some message) ->
  fault w = false ->
  (message <> []
   /\ (length message <= 1000)%nat
   /\ Forall (fun c => c <> 60%N /\ c <> 62%N) message)
  /\ (trim message = [] ->
      POST (chat_request forwarded realIP message) w st
      = (Some {| status := 400;
                 payload := ErrorBody (js "Invalid message content") |}, st))
  /\ (trim message <> [] ->
      carries_message (chat_request forwarded realIP message) message
      /\ sanitizeInput message = trim message).
Proof.
  intros (-> & Hne & _ & _)%send_begin_posts Hf.
  destruct (sanitizeInput_clean (inputText s)) as [Hlen Hclean].
  pose proof (sanitizeInput_of_clean _ Hclean Hlen) as Hsan.
  split; [done|]. split.
  - intros Ht. rewrite POST_by_verdict, Hf, validate_chat_request by done.
    by rewrite Hsan, Ht.
  - intros Ht. split; [|done]. apply validate_accepted.
    rewrite validate_chat_request by done. rewrite Hsan.
    by destruct (trim _).
Qed.

Lemma client_message_at_the_server_witness :
  let s := {| messages := []; inputText := js "< >"; isTyping := false;
              remainingMessages := 50; error := None |} in
  let message := js " " in
  (message <> []
   /\ (length message <= 1000)%nat
   /\ Forall (fun c => c <> 60%N /\ c <> 62%N) message)
  /\ (trim message = [] ->
      POST (chat_request None None message) (quiet_world 0) ∅
      = (Some {| status := 400;
                 payload := ErrorBody (js "Invalid message content") |}, ∅))
  /\ (trim message <> [] ->
      carries_message (chat_request None None message) message
      /\ sanitizeInput message = trim message).
Proof.
  cbv zeta.
  apply (client_message_at_the_server 5 6
           {| messages := []; inputText := js "< >"; isTyping := false;
              remainingMessages := 50; error := None |}
           (send_begin 5 6
              {| messages := []; inputText := js "< >"; isTyping := false;
                 remainingMessages := 50; error := None |}).1).
  - vm_compute. reflexivity.
  - reflexivity.
Defined.

(** What the client reads of an answer of [POST]: it always has the shape
    the client expects. *)
Lemma POST_read_chat (req : request) (w : world) (st : store) (r : response) :
  (POST req w st).1 = Some r ->
  (status r = 200
   /\ exists message fallback rem,
       payload r = ChatBody message fallback rem /\ message <> []
       /\ read_chat r
          = Some (Ok {| data_message := message; data_fallback := fallback;
                        data_remaining := rem |}))
  \/ ((status r = 400 \/ status r = 500)
      /\ read_chat r = Some (NotOk (status r))).
Proof.
  rewrite POST_by_verdict.
  pose proof (pool_not_empty _ (fallbackResponse_in_pool w)) as Hne.
  assert (LIMIT_MESSAGE <> []) as Hlimit by (vm_compute; discriminate).
  destruct (fault w); [intros [= <-]; right; by auto|].
  destruct (validate req) as [| | |m]; cbn [fst];
    try (intros [= <-]; right; by auto).
  cbv zeta.
  destruct (allowed (checkRateLimit (getClientIP req) (now w) st).1);
    [|intros [= <-]; left; split; [done|]; by do 3 eexists].
  destruct (GEMINI_API_KEY w) as [[|k ks]|]; cbn [fst];
    try (intros [= <-]; left; split; [done|]; by do 3 eexists).
  unfold generate.
  destruct (generateContent w _) as [[[|c t]|]| |];
    intros [= <-]; left; (split; [done|]); by do 3 eexists.
Qed.

(** X12. A message sent from the client to the route and back.  Whatever
    the route answers, the client can read it; the conversation grows by
    the user's message and one reply of the bot that is not empty, and the
    typing flag is cleared.  On status 200 the reply, its fallback flag and
    the new remaining count are those of the answer and no error is shown;
    on any other status the reply is the connection apology, flagged as a
    fallback, the count stays and the connection error is shown. *)
Theorem chat_round_trip (now date now' date' : Z) (s s1 : ui)
    (message : list N) (forwarded realIP : option (list N)) (w : world)
    (st : store) (r : response) :
  send_begin now date s = (s1, Some message) ->
  (POST (chat_request forwarded realIP message) w st).1 = Some r ->
  exists f reply,
    read_chat r = Some f
    /\ messages (send_end now' date' f s1)
       = messages s
         ++ [ {| msg_id := now; msg_text := message; msg_sender := user;
                 msg_timestamp := date; msg_fallback := None |};
              reply ]
    /\ msg_sender reply = bot /\ msg_text reply <> []
    /\ isTyping (send_end now' date' f s1) = false
    /\ (status r = 200 ->
        Some (msg_text reply) = message_of r
        /\ payload r
           = ChatBody (msg_text reply)
               (default true (msg_fallback reply))
               (remainingMessages (send_end now' date' f s1))
        /\ error (send_end now' date' f s1) = None)
    /\ (status r <> 200 ->
        msg_text reply = CONNECTION_TROUBLE
        /\ msg_fallback reply = Some true
        /\ remainingMessages (send_end now' date' f s1) = remainingMessages s
        /\ error (send_end now' date' f s1)
           = Some (js "Connection error. Please try again.")).
Proof.
  intros (-> & Hne & _ & ->)%send_begin_posts Hr.
  destruct (POST_read_chat _ _ _ _ Hr)
    as [(Hs & m & f & rem & Hp & Hm & Hread)|(Hs & Hread)];
    rewrite Hread; eexists _, _; (split; [reflexivity|]);
    cbn [send_end messages isTyping error remainingMessages];
    rewrite <- app_assoc; (split; [reflexivity|]);
    cbn [msg_sender msg_text msg_fallback data_message data_fallback
           data_remaining].
  - split; [done|]. split; [done|]. split; [done|]. split; [|by rewrite Hs].
    intros _. unfold message_of. rewrite Hp. cbn [default]. done.
  - assert (CONNECTION_TROUBLE <> []) by (vm_compute; discriminate).
    split; [done|]. split; [done|]. split; [done|].
    split; [intros E; rewrite E in Hs; by destruct Hs|done].
Qed.

Lemma chat_round_trip_witness :
  let s := {| messages := [welcome 0]; inputText := js " hello ";
              isTyping := false; remainingMessages := 50; error := None |} in
  exists f reply,
    read_chat (respond (ChatBody (js "Hi there") false 49)) = Some f
    /\ messages (send_end 7 8 f (send_begin 5 6 s).1)
       = messages s
         ++ [ {| msg_id := 5; msg_text := js "hello"; msg_sender := user;
                 msg_timestamp := 6; msg_fallback := None |};
              reply ]
    /\ msg_sender reply = bot /\ msg_text reply <> []
    /\ isTyping (send_end 7 8 f (send_begin 5 6 s).1) = false
    /\ (status (respond (ChatBody (js "Hi there") false 49)) = 200 ->
        Some (msg_text reply)
        = message_of (respond (ChatBody (js "Hi there") false 49))
        /\ payload (respond (ChatBody (js "Hi there") false 49))
           = ChatBody (msg_text reply)
               (default true (msg_fallback reply))
               (remainingMessages (send_end 7 8 f (send_begin 5 6 s).1))
        /\ error (send_end 7 8 f (send_begin 5 6 s).1) = None)
    /\ (status (respond (ChatBody (js "Hi there") false 49)) <> 200 ->
        msg_text reply = CONNECTION_TROUBLE
        /\ msg_fallback reply = Some true
        /\ remainingMessages (send_end 7 8 f (send_begin 5 6 s).1)
           = remainingMessages s
        /\ error (send_end 7 8 f (send_begin 5 6 s).1)
           = Some (js "Connection error. Please try again.")).
Proof.
  cbv zeta.
  apply (chat_round_trip 5 6 7 8 _ _ (js "hello") None None
           (keyed_world 9 (Fulfilled (Some (js "Hi there")))) ∅).
  - vm_compute. reflexivity.
  - vm_compute. reflexivity.
Defined.

(** X13. The count the client shows at start.  The first render has the
    input disabled (the count starts at 0).  The answer of [GET] can
    always be read; after an internal fault of the route (status 500) the
    client stays as it was, so the input stays disabled; otherwise the
    count becomes the one the route reports, and the input is disabled
    exactly when the caller has a live record with 50 or more requests.
    When the request itself fails, the client assumes 50. *)
Theorem mount_probe (date : Z) (req : request) (w : world) (st : store) :
  input_disabled (initial_ui date) = true
  /\ (exists f,
        read_probe (GET req w st).1 = Some f
        /\ (fault w = true ->
            fetchRemainingMessages f (initial_ui date) = initial_ui date)
        /\ (fault w = false ->
            payload (GET req w st).1
            = StatusBody
                (remainingMessages (fetchRemainingMessages f (initial_ui date)))
                (match f with Ok data => probe_resetTime data | _ => 0 end)
            /\ 0 <= remainingMessages
                      (fetchRemainingMessages f (initial_ui date))
            /\ (input_disabled (fetchRemainingMessages f (initial_ui date)) = true
                <-> exists v, st !! getClientIP req = Some v
                      /\ now w <= resetTime v /\ 50 <= count v)))
  /\ remainingMessages (fetchRemainingMessages Failed (initial_ui date)) = 50
  /\ input_disabled (fetchRemainingMessages Failed (initial_ui date)) = false.
Proof.
  split; [reflexivity|]. split; [|split; reflexivity].
  destruct (fault w) eqn:Hf.
  - rewrite GET_fault by done. eexists. split; [reflexivity|].
    split; [done|done].
  - rewrite GET_response by done.
    destruct (st !! getClientIP req) as [v|] eqn:E.
    + destruct (expired (now w) v) eqn:Ev.
      * eexists. split; [reflexivity|]. split; [done|]. intros _.
        split; [reflexivity|]. split; [done|].
        cbn. split; [done|]. intros (u & [= <-] & Hu%live_not_expired & _).
        congruence.
      * eexists. split; [reflexivity|]. split; [done|]. intros _.
        split; [reflexivity|].
        cbn [fetchRemainingMessages remainingMessages probe_remaining
               input_disabled initial_ui isTyping orb].
        split; [lia|]. unfold dailyLimit.
        destruct (Z.leb_spec (Z.max 0 (50 - count v)) 0) as [H|H].
        -- split; [intros _|done]. exists v. split; [done|].
           split; [by apply live_not_expired|lia].
        -- split; [done|]. intros (u & [= <-] & _ & Hc). lia.
    + eexists. split; [reflexivity|]. split; [done|]. intros _.
      split; [reflexivity|]. split; [done|].
      cbn. split; [done|]. intros (u & [=] & _).
Qed.

Lemma mount_probe_witness :
  fetchRemainingMessages
    (Ok {| probe_remaining := 0; probe_resetTime := 5000 |}) (initial_ui 0)
  = {| messages := [welcome 0]; inputText := []; isTyping := false;
       remainingMessages := 0; error := None |}
  /\ read_probe (GET hello_request (quiet_world 2000)
                   {[ ip0 := {| count := 50; resetTime := 5000 |} ]}).1
     = Some (Ok {| probe_remaining := 0; probe_resetTime := 5000 |})
  /\ input_disabled (initial_ui 0) = true.
Proof.
  split; [reflexivity|]. split; [vm_compute; reflexivity|].
  apply (proj1 (mount_probe 0 hello_request (quiet_world 2000) ∅)).
Defined.
